(** * Incremental iCloud deployment: a shallow embedding of
      [scripts/deploy_to_icloud.py]

    The script pushes a whitelisted part of a git working tree to a folder of
    a remote drive, remembers the last deployed commit in a marker file on the
    drive, and on later runs applies only the paths that [git diff] reports.

    Conventions of the embedding.
    - Python [str] values are [string]s whose characters are code points
      below 256; file contents are kept as the decoded text.
    - The remote drive (the [pyicloud] library) is not part of the script: it
      is a record of operations over an abstract [world], so that every
      statement below holds whatever the drive answers.  An in-memory drive
      with scripted failures, [Sim], instantiates it for concrete runs.
    - A Python call that may raise is a computation returning an [outcome];
      [try]/[except] blocks become [attempt] followed by a match on the
      exception.  Only [Exception] subclasses are modelled (no
      [KeyboardInterrupt] or [SystemExit]).
    - Every remote call, every [time.sleep] and every [print] of the script
      is recorded, in order, in the trace a computation returns.
    - Of the local file system only the working tree below the current
      directory is described; the scratch files of the marker are taken to
      work, except in [update_last_deployed_commit_scratch]. *)

From Stdlib Require Import String Ascii List ZArith Bool Arith Lia.
Import ListNotations.
Open Scope string_scope.

(** ** Python string helpers used by the script *)

Module PyStr.

(** [str.isspace] on one character (code points below 256). *)
Definition is_space (c : ascii) : bool :=
  let n := nat_of_ascii c in
  (((9 <=? n) && (n <=? 13)) || ((28 <=? n) && (n <=? 32))
   || (n =? 133) || (n =? 160))%nat.

Fixpoint lstrip (s : string) : string :=
  match s with
  | EmptyString => EmptyString
  | String c rest => if is_space c then lstrip rest else s
  end.

Fixpoint rstrip (s : string) : string :=
  match s with
  | EmptyString => EmptyString
  | String c rest =>
      match rstrip rest with
      | EmptyString => if is_space c then EmptyString else String c EmptyString
      | r => String c r
      end
  end.

(** [s.strip()] *)
Definition strip (s : string) : string := rstrip (lstrip s).

(** [s.split(sep)] for a one-character separator: never the empty list. *)
Fixpoint split (sep : ascii) (s : string) : list string :=
  match s with
  | EmptyString => [EmptyString]
  | String c rest =>
      if Ascii.eqb c sep then EmptyString :: split sep rest
      else match split sep rest with
           | [] => [String c EmptyString]
           | h :: t => String c h :: t
           end
  end.

(** [s.startswith(p)] *)
Definition startswith (s p : string) : bool := String.prefix p s.

(** Reading a file opened in text mode with the default [newline=None]:
    ["\r\n"] and a lone ["\r"] both come back as ["\n"]. *)
Definition CR : ascii := ascii_of_nat 13.
Definition LF : ascii := ascii_of_nat 10.
Definition TAB : ascii := ascii_of_nat 9.

Fixpoint universal_newlines (s : string) : string :=
  match s with
  | EmptyString => EmptyString
  | String c rest =>
      if Ascii.eqb c CR then
        match rest with
        | String c2 rest2 =>
            if Ascii.eqb c2 LF then String LF (universal_newlines rest2)
            else String LF (universal_newlines rest)
        | EmptyString => String LF EmptyString
        end
      else String c (universal_newlines rest)
  end.

(** [os.sep] on the POSIX hosts the script runs on. *)
Definition sep : ascii := "/"%char.
Definition sep_str : string := String sep EmptyString.

(** [s.rpartition(os.sep)] when [s] holds a separator: the text up to and
    including the last one, and the text after it. *)
Fixpoint rsplit_sep (s : string) : option (string * string) :=
  match s with
  | EmptyString => None
  | String c rest =>
      match rsplit_sep rest with
      | Some (head, tail) => Some (String c head, tail)
      | None => if Ascii.eqb c sep then Some (sep_str, rest) else None
      end
  end.

Fixpoint rstrip_sep (s : string) : string :=
  match s with
  | EmptyString => EmptyString
  | String c rest =>
      match rstrip_sep rest with
      | EmptyString => if Ascii.eqb c sep then EmptyString else String c EmptyString
      | r => String c r
      end
  end.

(** [os.path.basename] *)
Definition basename (p : string) : string :=
  match rsplit_sep p with
  | Some (_, tail) => tail
  | None => p
  end.

(** [os.path.dirname]: the head, without its trailing separators unless it
    consists of separators only. *)
Definition dirname (p : string) : string :=
  let head := match rsplit_sep p with Some (h, _) => h | None => EmptyString end in
  match rstrip_sep head with
  | EmptyString => head
  | h => h
  end.

(** Truth value of a string: [if s:]. *)
Definition truthy (s : string) : bool :=
  match s with EmptyString => false | _ => true end.

End PyStr.

(** ** Exceptions, outcomes and the remote drive *)

(** The exceptions the script tells apart.  [APIResponse code] is
    [PyiCloudAPIResponseException] with its [code] attribute; every other
    [Exception] is [OtherException] with its class name. *)
Inductive exn : Type :=
| KeyError
| IndexError
| TypeError
| APIResponse (code : Z)
| OtherException (what : string).

Inductive outcome (A : Type) : Type :=
| Ret (a : A)
| Raise (e : exn).
Arguments Ret {A} a.
Arguments Raise {A} e.

(** What the script uses of [pyicloud]'s drive.  [getitem n name] is
    [n[name]] (a [KeyError] when there is no such child), [first_folder]
    builds [DriveNode(parent.connection, result['folders'][0])] from the
    answer of [mkdir], and [node_upload n filename content] is
    [n.upload(f)] for an open local file [f].  [node_open_content n] is
    [n.open().content] as text: a download that cannot be decoded when it
    is read back in text mode is one of the ways this step raises. *)
Record Drive : Type := {
  node : Type;
  world : Type;
  mkdir_result : Type;
  getitem : node -> string -> world -> outcome node * world;
  node_delete : node -> world -> outcome unit * world;
  node_open_content : node -> world -> outcome string * world;
  node_mkdir : node -> string -> world -> outcome mkdir_result * world;
  node_upload : node -> string -> string -> world -> outcome unit * world;
  node_dir : node -> world -> outcome unit * world;
  first_folder : node -> mkdir_result -> outcome node;
  time_sleep : Z -> world -> world
}.

(** The local side: the raw answers of the two git commands, the working
    tree below the current directory and the [FOLDERS_TO_SYNC] variable. *)
#[warnings="-register-all"]
Inductive entry : Type :=
| File (name : string) (content : string)
| Dir (name : string) (children : list entry)
| Special (name : string).

Definition entry_name (e : entry) : string :=
  match e with
  | File n _ => n
  | Dir n _ => n
  | Special n => n
  end.

Record Local : Type := {
  environ_FOLDERS_TO_SYNC : option string;
  git_rev_parse_HEAD : outcome string;
  git_diff_name_status : string -> string -> outcome string;
  cwd : list entry
}.

(** What the operating system answers to the scratch-file steps of
    [update_last_deployed_commit]: [write_temp] is the creation and the
    writing of the temporary file, before the [try]; [stage_final] is what
    stands between the delete of the old marker and the upload, the removal
    of an older file of the final name, the renaming and the opening;
    [remove_scratch] is the removals of the [finally] block. *)
Record Scratch : Type := {
  write_temp : outcome unit;
  stage_final : outcome unit;
  remove_scratch : outcome unit
}.

(** ** Configuration (module level of the script) *)

Definition ICLOUD_FOLDER_NAME : string := "CooklangApp".
Definition STATE_FILE_NAME : string := "last_deployed_commit.txt".
Definition DEFAULT_FOLDERS : string := "bread,config,desserts,entrees,salad,sides,soup".

Definition FOLDERS_TO_SYNC (L : Local) : list string :=
  map PyStr.strip
      (PyStr.split ","%char
         (match environ_FOLDERS_TO_SYNC L with
          | Some v => v
          | None => DEFAULT_FOLDERS
          end)).

(** ** The local working tree *)

Fixpoint find_entry (name : string) (es : list entry) : option entry :=
  match es with
  | [] => None
  | e :: rest => if String.eqb (entry_name e) name then Some e else find_entry name rest
  end.

(** Resolution of a relative path, segment by segment, as the operating
    system does it.  Every step starts from a directory; an empty segment (a
    doubled or trailing separator) and ["."] stay in it, [".."] goes back to
    the directory it was entered from, a name goes to the entry of that
    name.  [above] holds the directories on the way down from the current
    directory, the nearest first. *)
Fixpoint lookup_local (segments : list string) (above : list entry) (here : entry) :
    outcome entry :=
  match segments with
  | [] => Ret here
  | seg :: rest =>
      match here with
      | Dir _ children =>
          if negb (PyStr.truthy seg) || String.eqb seg "." then
            lookup_local rest above here
          else if String.eqb seg ".." then
            match above with
            | parent :: above' => lookup_local rest above' parent
            | [] => Raise (OtherException "FileNotFoundError")
            end
          else
            match find_entry seg children with
            | Some e => lookup_local rest (here :: above) e
            | None => Raise (OtherException "FileNotFoundError")
            end
      | _ => Raise (OtherException "NotADirectoryError")
      end
  end.

(** Only the tree below the current directory is known: the empty path does
    not resolve, and neither does a path that leaves the tree, which is an
    absolute path or one that climbs above the current directory. *)
Definition resolve_local (L : Local) (path : string) : outcome entry :=
  match path with
  | EmptyString => Raise (OtherException "FileNotFoundError")
  | String c _ =>
      if Ascii.eqb c PyStr.sep then Raise (OtherException "FileNotFoundError")
      else lookup_local (PyStr.split PyStr.sep path) [] (Dir "." (cwd L))
  end.

(** [os.path.exists(path)] for a path relative to the current directory. *)
Definition os_path_exists (L : Local) (path : string) : bool :=
  match resolve_local L path with
  | Ret _ => true
  | Raise _ => false
  end.

(** [open(path, 'rb')] followed by reading the whole file. *)
Definition open_rb (L : Local) (path : string) : outcome string :=
  match resolve_local L path with
  | Ret (File _ content) => Ret content
  | Ret (Dir _ _) => Raise (OtherException "IsADirectoryError")
  | Ret (Special _) => Raise (OtherException "OSError")
  | Raise e => Raise e
  end.

(** ** [time.sleep]

    For an integer number of seconds: an [OverflowError] when the length does
    not fit the clock of CPython, which counts nanoseconds in 64 bits, a
    [ValueError] when it is negative. *)

Definition sleep_limit : Z := 9223372036.

Definition sleep_error (seconds : Z) : option exn :=
  if (seconds <? - sleep_limit)%Z || (sleep_limit <? seconds)%Z
  then Some (OtherException "OverflowError")
  else if (seconds <? 0)%Z then Some (OtherException "ValueError")
  else None.

(** ** The script *)

Section Script.

Variable D : Drive.
Variable L : Local.

(** One constructor for each [print] of the modelled functions. *)
Inductive message : Type :=
| MsgApiRetry (code sleep_time : Z)
| MsgErrorRetrying (e : exn)
| MsgCouldNotReadState (e : exn)
| MsgUpdatingState (commit_hash : string)
| MsgErrorUpdatingState (e : exn)
| MsgDeleting (relative_path : string)
| MsgNotFoundSkippingDelete (relative_path : string)
| MsgErrorDeleting (relative_path : string) (e : exn)
| MsgRootNotFoundCreating (folder_name : string)
| MsgOverwriting (relative_path : string)
| MsgUploading (relative_path : string)
| MsgProcessingDirectory (dir_name : string)
| MsgCreatingFolderInICloud (dir_name : string)
| MsgCriticalMkdirResult (dir_name : string) (e : exn)
| MsgRefreshingList
| MsgEnteringDirectory (dir_name : string)
| MsgAuthenticated
| MsgAccessingDrive
| MsgDeployingTo (folder_name : string)
| MsgCurrentCommit (current_hash : string)
| MsgFoundLastDeployed (last_hash : string)
| MsgCalculatingChanges
| MsgNoChanges
| MsgFoundChangedFiles (count : nat)
| MsgCreatingFolder (d : string)
| MsgChangedButNotFound (path : string)
| MsgNoPreviousDeployment
| MsgDeploymentComplete.

Inductive event : Type :=
| EvGetItem (n : node D) (name : string)
| EvDelete (n : node D)
| EvOpen (n : node D)
| EvMkdir (n : node D) (name : string)
| EvUpload (n : node D) (filename content : string)
| EvDir (n : node D)
| EvSleep (seconds : Z)
| EvPrint (m : message).

(** The calls that change the remote tree, and all calls to the drive. *)
Definition is_mutation (ev : event) : bool :=
  match ev with
  | EvDelete _ | EvMkdir _ _ | EvUpload _ _ _ => true
  | _ => false
  end.

Definition is_remote_call (ev : event) : bool :=
  match ev with
  | EvSleep _ | EvPrint _ => false
  | _ => true
  end.

(** A computation: from the world before to the outcome, the world after
    and the events in between. *)
Definition M (A : Type) : Type := world D -> outcome A * world D * list event.

Definition ret {A} (a : A) : M A := fun w => (Ret a, w, []).
Definition raise {A} (e : exn) : M A := fun w => (Raise e, w, []).
Definition lift {A} (o : outcome A) : M A := fun w => (o, w, []).

Definition bind {A B} (m : M A) (k : A -> M B) : M B :=
  fun w =>
    match m w with
    | (Ret a, w1, t1) => let '(r, w2, t2) := k a w1 in (r, w2, (t1 ++ t2)%list)
    | (Raise e, w1, t1) => (Raise e, w1, t1)
    end.

Notation "x <- m ;; k" := (bind m (fun x => k))
  (at level 61, m at next level, right associativity).
Notation "m ;; k" := (bind m (fun _ => k))
  (at level 61, right associativity).

(** [try: m  except ...:] with the exception handed over as a value. *)
Definition attempt {A} (m : M A) : M (A + exn) :=
  fun w =>
    match m w with
    | (Ret a, w1, t1) => (Ret (inl a), w1, t1)
    | (Raise e, w1, t1) => (Ret (inr e), w1, t1)
    end.

(** [try: m  except <clauses>]: [handler e] is the body of the clause that
    matches [e], [None] when no clause does. *)
Definition try_except {A} (m : M A) (handler : exn -> option (M A)) : M A :=
  r <- attempt m ;;
  match r with
  | inl a => ret a
  | inr e => match handler e with
             | Some h => h
             | None => raise e
             end
  end.

Definition on_KeyError {A} (h : M A) (e : exn) : option (M A) :=
  match e with
  | KeyError => Some h
  | _ => None
  end.

Fixpoint for_each {A} (body : A -> M unit) (l : list A) : M unit :=
  match l with
  | [] => ret tt
  | x :: rest => body x ;; for_each body rest
  end.

Definition print (m : message) : M unit := fun w => (Ret tt, w, [EvPrint m]).
Definition sleep (seconds : Z) : M unit :=
  match sleep_error seconds with
  | Some e => raise e
  | None => fun w => (Ret tt, time_sleep D seconds w, [EvSleep seconds])
  end.

Definition remote {A} (ev : event) (op : world D -> outcome A * world D) : M A :=
  fun w => let '(r, w1) := op w in (r, w1, [ev]).

Definition item (n : node D) (name : string) : M (node D) :=
  remote (EvGetItem n name) (getitem D n name).
Definition delete (n : node D) : M unit :=
  remote (EvDelete n) (node_delete D n).
Definition open_content (n : node D) : M string :=
  remote (EvOpen n) (node_open_content D n).
Definition mkdir (n : node D) (name : string) : M (mkdir_result D) :=
  remote (EvMkdir n name) (node_mkdir D n name).
Definition upload (n : node D) (filename content : string) : M unit :=
  remote (EvUpload n filename content) (node_upload D n filename content).
Definition dir (n : node D) : M unit :=
  remote (EvDir n) (node_dir D n).

(** *** [retry_api_call] *)

(** The iterations [i, i+1, ...] of [for i in range(retries)], [remaining]
    of them being left.  The result is [Some a] for a value [a] that [func]
    returned and [None] when the loop ends without a [return]; the caller
    in Python sees [None] then, as it does when [func] itself returns
    [None]. *)
Fixpoint retry_loop {A} (func : M A) (retries : nat) (delay : Z)
    (remaining i : nat) : M (option A) :=
  match remaining with
  | O => ret None
  | S remaining' =>
      r <- attempt func ;;
      match r with
      | inl a => ret (Some a)
      | inr (APIResponse code as e) =>
          if (code =? 503)%Z || (code =? 500)%Z then
            if (i =? retries - 1)%nat then raise e
            else
              let sleep_time := (delay * 2 ^ Z.of_nat i)%Z in
              print (MsgApiRetry code sleep_time) ;;
              sleep sleep_time ;;
              retry_loop func retries delay remaining' (S i)
          else raise e
      | inr e =>
          if (i =? retries - 1)%nat then raise e
          else
            print (MsgErrorRetrying e) ;;
            sleep delay ;;
            retry_loop func retries delay remaining' (S i)
      end
  end.

Definition retry_api_call {A} (func : M A) (retries : nat) (delay : Z) : M (option A) :=
  retry_loop func retries delay retries 0.

(** The defaults [retries=3, delay=2], which every call site uses. *)
Definition retry_default {A} (func : M A) : M (option A) := retry_api_call func 3 2.

(** *** Revision ids and the git diff *)

Definition get_current_commit_hash : M string :=
  out <- lift (git_rev_parse_HEAD L) ;;
  ret (PyStr.strip out).

(** One line of [git diff --name-status]: [parts[0][0]] and [parts[1]] when
    the line has at least two tab-separated parts. *)
Definition parse_line (line : string) : outcome (option (ascii * string)) :=
  let parts := PyStr.split PyStr.TAB line in
  if (2 <=? length parts)%nat then
    match nth 0 parts EmptyString with
    | EmptyString => Raise IndexError
    | String status _ => Ret (Some (status, nth 1 parts EmptyString))
    end
  else Ret None.

Fixpoint parse_lines (lines : list string) : outcome (list (ascii * string)) :=
  match lines with
  | [] => Ret []
  | line :: rest =>
      match parse_line line with
      | Raise e => Raise e
      | Ret c =>
          match parse_lines rest with
          | Raise e => Raise e
          | Ret changes =>
              Ret (match c with Some x => x :: changes | None => changes end)
          end
      end
  end.

Definition get_git_changes (last_hash current_hash : string) : M (list (ascii * string)) :=
  raw <- lift (git_diff_name_status L last_hash current_hash) ;;
  let output := PyStr.strip raw in
  if negb (PyStr.truthy output) then ret []
  else lift (parse_lines (PyStr.split PyStr.LF output)).

(** *** The state marker

    The scratch files of the source only carry the text between the drive
    and the script: the download is written in binary mode and read back in
    text mode, the commit hash is written in text mode and uploaded in
    binary mode under the name [STATE_FILE_NAME].  The two definitions that
    follow take the scratch-file steps themselves to work;
    [update_last_deployed_commit_scratch] has the marker write with their
    failures. *)

Definition get_last_deployed_commit (app_folder : node D) : M (option string) :=
  try_except
    (file_node <- item app_folder STATE_FILE_NAME ;;
     content <- open_content file_node ;;
     let commit_hash := PyStr.strip (PyStr.universal_newlines content) in
     ret (Some commit_hash))
    (fun e =>
       match e with
       | KeyError => Some (ret None)
       | _ => Some (print (MsgCouldNotReadState e) ;; ret None)
       end).

Definition update_last_deployed_commit (app_folder : node D) (commit_hash : string) : M unit :=
  print (MsgUpdatingState commit_hash) ;;
  try_except
    (try_except
       (old <- item app_folder STATE_FILE_NAME ;; delete old)
       (on_KeyError (ret tt)) ;;
     _ <- retry_default (upload app_folder STATE_FILE_NAME commit_hash) ;;
     ret tt)
    (fun e => Some (print (MsgErrorUpdatingState e))).

(** [update_last_deployed_commit] with the answers [S] of the operating
    system to its scratch-file steps.  [guarded_marker_write] is the [try]
    block with its [except Exception] clause, which only prints.  The
    temporary file is written before it, the [finally] block comes last,
    whatever went before. *)
Definition guarded_marker_write (S : Scratch)
    (app_folder : node D) (commit_hash : string) : M unit :=
  try_except
    (try_except
       (old <- item app_folder STATE_FILE_NAME ;; delete old)
       (on_KeyError (ret tt)) ;;
     lift (stage_final S) ;;
     _ <- retry_default (upload app_folder STATE_FILE_NAME commit_hash) ;;
     ret tt)
    (fun e => Some (print (MsgErrorUpdatingState e))).

Definition update_last_deployed_commit_scratch (S : Scratch)
    (app_folder : node D) (commit_hash : string) : M unit :=
  print (MsgUpdatingState commit_hash) ;;
  lift (write_temp S) ;;
  guarded_marker_write S app_folder commit_hash ;;
  lift (remove_scratch S).

(** *** Single remote operations *)

(** [for part in path_parts: node = node[part]] *)
Fixpoint walk (n : node D) (path_parts : list string) : M (node D) :=
  match path_parts with
  | [] => ret n
  | part :: rest => child <- item n part ;; walk child rest
  end.

Definition delete_file (icloud_folder : node D) (relative_path : string) : M unit :=
  try_except
    (let path_parts := PyStr.split PyStr.sep relative_path in
     n <- walk icloud_folder path_parts ;;
     print (MsgDeleting relative_path) ;;
     delete n)
    (fun e =>
       match e with
       | KeyError => Some (print (MsgNotFoundSkippingDelete relative_path))
       | _ => Some (print (MsgErrorDeleting relative_path e))
       end).

Definition get_or_create_folder (drive : node D) (folder_name : string) : M (node D) :=
  try_except
    (item drive folder_name)
    (on_KeyError
       (print (MsgRootNotFoundCreating folder_name) ;;
        _ <- mkdir drive folder_name ;;
        item drive folder_name)).

(** [local_path] is resolved from the current directory. *)
Definition upload_file (drive_folder : node D) (local_path relative_path : string) : M unit :=
  let filename := PyStr.basename local_path in
  try_except
    (icloud_file <- item drive_folder filename ;;
     print (MsgOverwriting relative_path) ;;
     delete icloud_file)
    (on_KeyError (ret tt)) ;;
  print (MsgUploading relative_path) ;;
  content <- lift (open_rb L local_path) ;;
  _ <- retry_default (upload drive_folder filename content) ;;
  ret tt.

(** [result['folders'][0]] wrapped in a [DriveNode]; [result] is [None]
    when [retry_api_call] ran out of iterations without returning. *)
Definition new_folder_node (parent : node D) (result : option (mkdir_result D)) : outcome (node D) :=
  match result with
  | None => Raise TypeError
  | Some r => first_folder D parent r
  end.

(** [any(path.startswith(f + os.sep) for f in FOLDERS_TO_SYNC)] *)
Definition under_whitelisted (path : string) : bool :=
  existsb (fun f => PyStr.startswith path (f ++ PyStr.sep_str)) (FOLDERS_TO_SYNC L).

(** *** Full synchronisation *)

(** [os.path.relpath(entry.path, os.getcwd())] for an entry called [name] of
    the directory whose own relative path is [here] (["."] for the current
    directory). *)
Definition relpath_of (here name : string) : string :=
  if String.eqb here "." then name else here ++ PyStr.sep_str ++ name.

(** The sub-folder of [icloud_folder] for [dir_name], created when absent. *)
Definition sub_folder_of (icloud_folder : node D) (dir_name : string) : M (node D) :=
  try_except
    (item icloud_folder dir_name)
    (on_KeyError
       (print (MsgCreatingFolderInICloud dir_name) ;;
        result <- retry_default (mkdir icloud_folder dir_name) ;;
        try_except
          (lift (new_folder_node icloud_folder result))
          (fun e =>
             match e with
             | KeyError | IndexError | TypeError =>
                 Some
                   (print (MsgCriticalMkdirResult dir_name e) ;;
                    try_except
                      (item icloud_folder dir_name)
                      (on_KeyError
                         (print MsgRefreshingList ;;
                          _ <- attempt (dir icloud_folder) ;;
                          item icloud_folder dir_name)))
             | _ => None
             end))).

(** The body of the [for entry in it] loop of [sync_directory], for the
    directory with relative path [here]; the recursive call of
    [sync_directory] is the [for_each] over the children. *)
Fixpoint sync_entry (here : string) (icloud_folder : node D) (e : entry) {struct e} : M unit :=
  let name := entry_name e in
  if PyStr.startswith name "." || String.eqb name "__pycache__" then ret tt
  else
    match e with
    | File _ _ =>
        let relative_path := relpath_of here name in
        if negb (under_whitelisted relative_path) then ret tt
        else upload_file icloud_folder relative_path relative_path
    | Dir _ children =>
        let rel_path := relpath_of here name in
        let process_dir :=
          if existsb (String.eqb rel_path) (FOLDERS_TO_SYNC L) then true
          else under_whitelisted rel_path in
        if negb process_dir then ret tt
        else
          let dir_name := name in
          print (MsgProcessingDirectory dir_name) ;;
          sub_folder <- sub_folder_of icloud_folder dir_name ;;
          print (MsgEnteringDirectory dir_name) ;;
          for_each (sync_entry rel_path sub_folder) children
    | Special _ => ret tt
    end.

Definition sync_directory (here : string) (entries : list entry) (icloud_folder : node D) : M unit :=
  for_each (sync_entry here icloud_folder) entries.

(** *** Incremental synchronisation *)

(** [for d in dirs] of [main]: walk down from [current_node], creating the
    folders that are missing. *)
Fixpoint descend (current_node : node D) (dirs : list string) : M (node D) :=
  match dirs with
  | [] => ret current_node
  | d :: rest =>
      if negb (PyStr.truthy d) then descend current_node rest
      else
        next <-
          try_except
            (item current_node d)
            (on_KeyError
               (print (MsgCreatingFolder d) ;;
                result <- retry_default (mkdir current_node d) ;;
                try_except
                  (lift (new_folder_node current_node result))
                  (fun _ =>
                     Some
                       (try_except
                          (item current_node d)
                          (on_KeyError
                             (_ <- attempt (dir current_node) ;;
                              item current_node d)))))) ;;
        descend next rest
  end.

(** The body of [for status, path in changes]. *)
Definition apply_change (app_folder : node D) (change : ascii * string) : M unit :=
  let '(status, path) := change in
  if negb (under_whitelisted path) then ret tt
  else if Ascii.eqb status "D"%char then delete_file app_folder path
  else if os_path_exists L path then
    let dirs := PyStr.split PyStr.sep (PyStr.dirname path) in
    current_node <- descend app_folder dirs ;;
    upload_file current_node path path
  else print (MsgChangedButNotFound path).

(** The [if last_hash:] branch of [main]. *)
Definition incremental_sync (app_folder : node D) (last_hash current_hash : string) : M unit :=
  print (MsgFoundLastDeployed last_hash) ;;
  print MsgCalculatingChanges ;;
  changes <- get_git_changes last_hash current_hash ;;
  match changes with
  | [] => print MsgNoChanges
  | _ =>
      print (MsgFoundChangedFiles (length changes)) ;;
      for_each (apply_change app_folder) changes ;;
      update_last_deployed_commit app_folder current_hash
  end.

(** The [else] branch of [main]. *)
Definition full_sync (app_folder : node D) (current_hash : string) : M unit :=
  print MsgNoPreviousDeployment ;;
  sync_directory "." (cwd L) app_folder ;;
  update_last_deployed_commit app_folder current_hash.

(** [main], from the authenticated session on: [drive] is [api.drive]. *)
Definition main (drive : node D) : M unit :=
  print MsgAuthenticated ;;
  print MsgAccessingDrive ;;
  app_folder <- get_or_create_folder drive ICLOUD_FOLDER_NAME ;;
  print (MsgDeployingTo ICLOUD_FOLDER_NAME) ;;
  current_hash <- get_current_commit_hash ;;
  print (MsgCurrentCommit current_hash) ;;
  last_hash <- get_last_deployed_commit app_folder ;;
  match last_hash with
  | Some h =>
      if PyStr.truthy h then incremental_sync app_folder h current_hash
      else full_sync app_folder current_hash
  | None => full_sync app_folder current_hash
  end ;;
  print MsgDeploymentComplete.

End Script.

Arguments ret {D A} a.
Arguments raise {D A} e.
Arguments lift {D A} o.
Arguments bind {D A B} m k.
Arguments attempt {D A} m.
Arguments try_except {D A} m handler.
Arguments on_KeyError {D A} h e.
Arguments for_each {D A} body l.
Arguments print {D} m.
Arguments sleep {D} seconds.
Arguments item {D} n name.
Arguments delete {D} n.
Arguments open_content {D} n.
Arguments mkdir {D} n name.
Arguments upload {D} n filename content.
Arguments dir {D} n.
Arguments retry_loop {D A} func retries delay remaining i.
Arguments retry_api_call {D A} func retries delay.
Arguments retry_default {D A} func.
Arguments get_last_deployed_commit {D} app_folder.
Arguments update_last_deployed_commit {D} app_folder commit_hash.
Arguments guarded_marker_write {D} S app_folder commit_hash.
Arguments update_last_deployed_commit_scratch {D} S app_folder commit_hash.
Arguments walk {D} n path_parts.
Arguments delete_file {D} icloud_folder relative_path.
Arguments get_or_create_folder {D} drive folder_name.
Arguments new_folder_node {D} parent result.
Arguments sub_folder_of {D} icloud_folder dir_name.
Arguments descend {D} current_node dirs.
Arguments upload_file {D} L drive_folder local_path relative_path.
Arguments sync_entry {D} L here icloud_folder e.
Arguments sync_directory {D} L here entries icloud_folder.
Arguments apply_change {D} L app_folder change.
Arguments incremental_sync {D} L app_folder last_hash current_hash.
Arguments full_sync {D} L app_folder current_hash.
Arguments main {D} L drive.
Arguments get_current_commit_hash {D} L.
Arguments get_git_changes {D} L last_hash current_hash.
Arguments EvGetItem {D} n name.
Arguments EvDelete {D} n.
Arguments EvOpen {D} n.
Arguments EvMkdir {D} n name.
Arguments EvUpload {D} n filename content.
Arguments EvDir {D} n.
Arguments EvSleep {D} seconds.
Arguments EvPrint {D} m.
Arguments is_mutation {D} ev.
Arguments is_remote_call {D} ev.

(** ** An in-memory drive with scripted failures

    Nodes are named by their path from the drive root.  Each call to the
    drive first takes the next entry of [faults]: [Some e] makes the call
    raise [e] and leaves the tree alone, [None] (or an exhausted list) lets
    it through.  [mkdir_answers] tells whether the answer of [mkdir] carries
    the new folder. *)

Module Sim.

Local Open Scope list_scope.

Inductive rnode : Type :=
| RFile (content : string)
| RFolder.

Record state : Type := {
  store : list string -> option rnode;
  faults : list (option exn);
  mkdir_answers : bool;
  clock : Z
}.

Fixpoint path_eqb (p q : list string) : bool :=
  match p, q with
  | [], [] => true
  | a :: p', b :: q' => String.eqb a b && path_eqb p' q'
  | _, _ => false
  end.

Fixpoint is_prefix (p q : list string) : bool :=
  match p, q with
  | [], _ => true
  | a :: p', b :: q' => String.eqb a b && is_prefix p' q'
  | _ :: _, [] => false
  end.

Definition put (p : list string) (v : rnode) (s : list string -> option rnode) :
    list string -> option rnode :=
  fun q => if path_eqb p q then Some v else s q.

Definition remove_tree (p : list string) (s : list string -> option rnode) :
    list string -> option rnode :=
  fun q => if is_prefix p q then None else s q.

Definition with_store (w : state) (s : list string -> option rnode) : state :=
  {| store := s; faults := faults w; mkdir_answers := mkdir_answers w; clock := clock w |}.

(** The next scripted answer, and the world with it taken off the script. *)
Definition next_fault (w : state) : option exn * state :=
  match faults w with
  | [] => (None, w)
  | f :: rest =>
      (f, {| store := store w; faults := rest;
             mkdir_answers := mkdir_answers w; clock := clock w |})
  end.

Definition call {A} (op : state -> outcome A * state) (w : state) : outcome A * state :=
  match next_fault w with
  | (Some e, w') => (Raise e, w')
  | (None, w') => op w'
  end.

Definition drive : Drive := {|
  node := list string;
  world := state;
  mkdir_result := option (list string);
  getitem := fun n name =>
    call (fun w =>
      match store w (n ++ [name]) with
      | Some _ => (Ret (n ++ [name]), w)
      | None => (Raise KeyError, w)
      end);
  node_delete := fun n =>
    call (fun w => (Ret tt, with_store w (remove_tree n (store w))));
  node_open_content := fun n =>
    call (fun w =>
      match store w n with
      | Some (RFile content) => (Ret content, w)
      | Some RFolder => (Raise (OtherException "NotAFile"), w)
      | None => (Raise (APIResponse 404), w)
      end);
  node_mkdir := fun n name =>
    call (fun w =>
      (Ret (if mkdir_answers w then Some (n ++ [name]) else None),
       with_store w (put (n ++ [name]) RFolder (store w))));
  node_upload := fun n filename content =>
    call (fun w => (Ret tt, with_store w (put (n ++ [filename]) (RFile content) (store w))));
  node_dir := fun n => call (fun w => (Ret tt, w));
  first_folder := fun _ r =>
    match r with
    | Some p => Ret p
    | None => Raise KeyError
    end;
  time_sleep := fun seconds w =>
    {| store := store w; faults := faults w;
       mkdir_answers := mkdir_answers w; clock := (clock w + seconds)%Z |}
|}.

(** A store given by the list of its nodes. *)
Fixpoint store_of (nodes : list (list string * rnode)) : list string -> option rnode :=
  match nodes with
  | [] => fun _ => None
  | (p, v) :: rest => put p v (store_of rest)
  end.

Definition initial (nodes : list (list string * rnode)) (script : list (option exn)) : state :=
  {| store := store_of nodes; faults := script; mkdir_answers := true; clock := 0%Z |}.

End Sim.

(** ** Concrete runs

    A small working tree, the drive after an earlier deployment of commit
    [aaa], and the git answers of a run at commit [bbb]. *)

Module Demo.

Local Open Scope list_scope.

Definition tab : string := String PyStr.TAB EmptyString.
Definition lf : string := String PyStr.LF EmptyString.

Definition tree : list entry :=
  [Dir "soup" [File "new.cook" "NEW"; File "x.cook" "X"];
   File "README.md" "readme";
   Dir ".git" [File "HEAD" "ref"]].

Definition local (diff : string) : Local :=
  {| environ_FOLDERS_TO_SYNC := None;
     git_rev_parse_HEAD := Ret ("bbb" ++ lf)%string;
     git_diff_name_status := fun _ _ => Ret diff;
     cwd := tree |}.

Definition app : node Sim.drive := [ICLOUD_FOLDER_NAME].

Definition deployed : list (list string * Sim.rnode) :=
  [([ICLOUD_FOLDER_NAME], Sim.RFolder);
   ([ICLOUD_FOLDER_NAME; "soup"], Sim.RFolder);
   ([ICLOUD_FOLDER_NAME; "soup"; "x.cook"], Sim.RFile "old X");
   ([ICLOUD_FOLDER_NAME; STATE_FILE_NAME], Sim.RFile "aaa")].

(** Events of the in-memory drive. *)
Abbreviation GetItem := (@EvGetItem Sim.drive).
Abbreviation Delete := (@EvDelete Sim.drive).
Abbreviation Open := (@EvOpen Sim.drive).
Abbreviation Upload := (@EvUpload Sim.drive).
Abbreviation Print := (@EvPrint Sim.drive).
Abbreviation Sleep := (@EvSleep Sim.drive).

(** [n] calls that go through, then the given failures. *)
Definition after (n : nat) (failures : list exn) : list (option exn) :=
  repeat None n ++ map Some failures.

End Demo.

(** The pauses of a trace, in order. *)
Definition sleeps {D} (t : list (event D)) : list Z :=
  flat_map (fun ev => match ev with EvSleep s => [s] | _ => [] end) t.

(** The whitelist in the words of the specification: a path is in scope when
    it is a whitelisted name or begins with one followed by the separator. *)
Definition in_whitelist (folders : list string) (path : string) : Prop :=
  In path folders \/
  exists f, In f folders /\ PyStr.startswith path (f ++ PyStr.sep_str) = true.

(** The marker upload for revision [h]. *)
Definition writes_marker {D} (app_folder : node D) (h : string) (t : list (event D)) : Prop :=
  In (EvUpload app_folder STATE_FILE_NAME h) t.

(** The pause after a failure [e] on iteration [i] (counted from 0) that is
    not the last one; [None] when [e] is not retried. *)
Definition pause_after (delay : Z) (i : nat) (e : exn) : option Z :=
  match e with
  | APIResponse code =>
      if (code =? 503)%Z || (code =? 500)%Z then Some (delay * 2 ^ Z.of_nat i)%Z
      else None
  | _ => Some delay
  end.

Definition retry_message (e : exn) (pause : Z) : message :=
  match e with
  | APIResponse code => MsgApiRetry code pause
  | _ => MsgErrorRetrying e
  end.

(** What [delete_file] prints when its [try] block raises [e]. *)
Definition delete_file_log (relative_path : string) (e : exn) : message :=
  match e with
  | KeyError => MsgNotFoundSkippingDelete relative_path
  | _ => MsgErrorDeleting relative_path e
  end.

(** A failure [e] of the marker read of [get_last_deployed_commit]: in the
    lookup of the marker node or in the download of its content. *)
Definition marker_read_raises {D} (app_folder : node D) (w : world D) (e : exn)
    (w' : world D) (t : list (event D)) : Prop :=
  (getitem D app_folder STATE_FILE_NAME w = (Raise e, w')
   /\ t = [EvGetItem app_folder STATE_FILE_NAME])
  \/ (exists file_node w1,
        getitem D app_folder STATE_FILE_NAME w = (Ret file_node, w1)
        /\ node_open_content D file_node w1 = (Raise e, w')
        /\ t = [EvGetItem app_folder STATE_FILE_NAME; EvOpen file_node]).

(** What [get_last_deployed_commit] prints when its [try] block raises [e]:
    nothing for a [KeyError], the warning for every other exception. *)
Definition marker_read_log {D} (e : exn) : list (event D) :=
  match e with
  | KeyError => []
  | _ => [EvPrint (MsgCouldNotReadState e)]
  end.

(** A revision id without any white space, as git prints them. *)
Definition is_token (s : string) : bool :=
  forallb (fun c => negb (PyStr.is_space c)) (list_ascii_of_string s).

(** The sum of the pauses of a trace. *)
Definition total_pause {D} (t : list (event D)) : Z :=
  fold_right Z.add 0%Z (sleeps t).

(** [s] does not hold the character [c]. *)
Definition lacks (c : ascii) (s : string) : bool :=
  forallb (fun x => negb (Ascii.eqb x c)) (list_ascii_of_string s).

(** [s] is not empty and does not end in white space. *)
Definition ends_visibly (s : string) : bool :=
  PyStr.truthy s && String.eqb (PyStr.rstrip s) s.

(** The line git prints for a change with one path: the status letter, a
    tab, the path. *)
Definition format_change (c : ascii * string) : string :=
  String (fst c) (String PyStr.TAB (snd c)).

(** A change that one such line carries faithfully: the status is not white
    space, the path holds no tab and no newline and ends visibly. *)
Definition plain_change (c : ascii * string) : bool :=
  negb (PyStr.is_space (fst c))
  && lacks PyStr.TAB (snd c) && lacks PyStr.LF (snd c) && ends_visibly (snd c).


(** Every file of the tree [e], found in the directory with relative path
    [here], that is in scope can be opened under its relative path. *)
Fixpoint readable (L : Local) (here : string) (e : entry) {struct e} : bool :=
  match e with
  | File name _ =>
      let rel := relpath_of here name in
      negb (under_whitelisted L rel)
      || match open_rb L rel with Ret _ => true | Raise _ => false end
  | Dir name children => forallb (readable L (relpath_of here name)) children
  | Special _ => true
  end.

(** No name occurs twice. *)
Fixpoint distinct (names : list string) : bool :=
  match names with
  | [] => true
  | x :: rest => negb (existsb (String.eqb x) rest) && distinct rest
  end.

(** A tree as a file system has it: no name holds the separator and the
    entries of a directory have different names. *)
Fixpoint tidy (e : entry) {struct e} : bool :=
  lacks PyStr.sep (entry_name e)
  && match e with
     | Dir _ children => distinct (map entry_name children) && forallb tidy children
     | _ => true
     end.

(** The store [st] holds, below [folder], every file of the tree [e] that
    the full walk has in scope when it finds [e] in the directory with
    relative path [here]: under the same names, with the content the local
    file opens with. *)
Fixpoint in_place (L : Local) (st : list string -> option Sim.rnode)
    (here : string) (folder : list string) (e : entry) {struct e} : bool :=
  let name := entry_name e in
  if PyStr.startswith name "." || String.eqb name "__pycache__" then true
  else
    match e with
    | File _ _ =>
        let rel := relpath_of here name in
        if under_whitelisted L rel then
          match open_rb L rel, st (folder ++ [name])%list with
          | Ret content, Some (Sim.RFile stored) => String.eqb stored content
          | _, _ => false
          end
        else true
    | Dir _ children =>
        let rel := relpath_of here name in
        if existsb (String.eqb rel) (FOLDERS_TO_SYNC L) || under_whitelisted L rel then
          forallb (in_place L st rel (folder ++ [name])%list) children
        else true
    | Special _ => true
    end.

(** What the full walk achieves for one entry on a drive that does not
    fail. *)
Definition walk_done (L : Local) (e : entry) : Prop :=
  forall here (folder : node Sim.drive) w,
    Sim.faults w = [] ->
    readable L here e = true ->
    tidy e = true ->
    exists w' t,
      sync_entry (D := Sim.drive) L here folder e w = (Ret tt, w', t)
      /\ Sim.faults w' = []
      /\ (forall q, Sim.is_prefix (folder ++ [entry_name e])%list q = false ->
                    Sim.store w' q = Sim.store w q)
      /\ in_place L (Sim.store w') here folder e = true.

(** ** Properties *)

Section Monad_facts.

Variable D : Drive.

Lemma bind_Ret A B (m : M D A) (k : A -> M D B) w a w1 t1 :
  m w = (Ret a, w1, t1) ->
  bind m k w = (let '(r, w2, t2) := k a w1 in (r, w2, (t1 ++ t2)%list)).
Proof. intros H. unfold bind. rewrite H. reflexivity. Qed.

Lemma bind_Raise A B (m : M D A) (k : A -> M D B) w e w1 t1 :
  m w = (Raise e, w1, t1) -> bind m k w = (Raise e, w1, t1).
Proof. intros H. unfold bind. rewrite H. reflexivity. Qed.

Lemma attempt_Ret A (m : M D A) w a w1 t1 :
  m w = (Ret a, w1, t1) -> attempt m w = (Ret (inl a), w1, t1).
Proof. intros H. unfold attempt. rewrite H. reflexivity. Qed.

Lemma attempt_Raise A (m : M D A) w e w1 t1 :
  m w = (Raise e, w1, t1) -> attempt m w = (Ret (inr e), w1, t1).
Proof. intros H. unfold attempt. rewrite H. reflexivity. Qed.

Lemma try_except_Ret A (m : M D A) handler w a w1 t1 :
  m w = (Ret a, w1, t1) -> try_except m handler w = (Ret a, w1, t1).
Proof.
  intros H. unfold try_except.
  rewrite (bind_Ret _ _ _ _ _ _ _ _ (attempt_Ret _ _ _ _ _ _ H)).
  simpl. now rewrite app_nil_r.
Qed.

Lemma try_except_handled A (m : M D A) handler w e w1 t1 h :
  m w = (Raise e, w1, t1) -> handler e = Some h ->
  try_except m handler w = (let '(r, w2, t2) := h w1 in (r, w2, (t1 ++ t2)%list)).
Proof.
  intros H Hh. unfold try_except.
  rewrite (bind_Ret _ _ _ _ _ _ _ _ (attempt_Raise _ _ _ _ _ _ H)).
  now rewrite Hh.
Qed.

Lemma try_except_unhandled A (m : M D A) handler w e w1 t1 :
  m w = (Raise e, w1, t1) -> handler e = None ->
  try_except m handler w = (Raise e, w1, t1).
Proof.
  intros H Hh. unfold try_except.
  rewrite (bind_Ret _ _ _ _ _ _ _ _ (attempt_Raise _ _ _ _ _ _ H)).
  rewrite Hh. simpl. now rewrite app_nil_r.
Qed.

(** A [try] whose every handler only prints cannot raise. *)
Lemma try_except_logged (m : M D unit) handler w :
  (forall e, exists msg, handler e = Some (print msg)) ->
  fst (fst (try_except m handler w)) = Ret tt.
Proof.
  intros Hh. destruct (m w) as [[[[] | e] w1] t1] eqn:Hm.
  - now rewrite (try_except_Ret _ _ _ _ _ _ _ Hm).
  - destruct (Hh e) as [msg Hmsg].
    now rewrite (try_except_handled _ _ _ _ _ _ _ _ Hm Hmsg).
Qed.

End Monad_facts.

(** *** The retry wrapper *)


Lemma sleep_error_taken (seconds : Z) :
  sleep_error seconds = None -> (0 <= seconds <= sleep_limit)%Z.
Proof.
  unfold sleep_error.
  destruct (seconds <? - sleep_limit)%Z eqn:E1; [discriminate | ].
  destruct (sleep_limit <? seconds)%Z eqn:E2; [discriminate | ].
  destruct (seconds <? 0)%Z eqn:E3; [discriminate | ].
  intros _. apply Z.ltb_ge in E2, E3. lia.
Qed.

Section Retry_facts.

Variable D : Drive.
Variable A : Type.
Variable func : M D A.
Variables (retries : nat) (delay : Z).

Lemma retry_loop_success remaining i w a w1 t1 :
  func w = (Ret a, w1, t1) ->
  retry_loop func retries delay (S remaining) i w = (Ret (Some a), w1, t1).
Proof.
  intros H. simpl.
  rewrite (bind_Ret _ _ _ _ _ _ _ _ _ (attempt_Ret _ _ _ _ _ _ _ H)).
  simpl. now rewrite app_nil_r.
Qed.

Lemma print_sleep_accepted B (m : message) pause (k : M D B) w1 :
  sleep_error pause = None ->
  bind (print m) (fun _ => bind (sleep pause) (fun _ => k)) w1 =
  (let '(r, w2, t2) := k (time_sleep D pause w1) in
   (r, w2, ([EvPrint m; EvSleep pause] ++ t2)%list)).
Proof.
  intros H. unfold bind, print, sleep. rewrite H.
  destruct (k (time_sleep D pause w1)) as [[r w2] t2]. reflexivity.
Qed.

Lemma print_sleep_refused B (m : message) pause e (k : M D B) w1 :
  sleep_error pause = Some e ->
  bind (print m) (fun _ => bind (sleep pause) (fun _ => k)) w1 =
  (Raise e, w1, [EvPrint m]).
Proof. intros H. unfold bind, print, sleep, raise. rewrite H. reflexivity. Qed.

(** The iteration after a failure [e] of [func] that is to be retried. *)
Lemma retry_loop_pause remaining i w e w1 t1 pause :
  func w = (Raise e, w1, t1) ->
  pause_after delay i e = Some pause ->
  i <> retries - 1 ->
  retry_loop func retries delay (S remaining) i w =
  (let '(r, w2, t2) :=
     bind (print (retry_message e pause))
       (fun _ => bind (sleep pause)
                   (fun _ => retry_loop func retries delay remaining (S i))) w1 in
   (r, w2, (t1 ++ t2)%list)).
Proof.
  intros H Hp Hi. simpl.
  rewrite (bind_Ret _ _ _ _ _ _ _ _ _ (attempt_Raise _ _ _ _ _ _ _ H)).
  apply Nat.eqb_neq in Hi.
  destruct e as [ | | | code | what]; simpl in Hp |- *;
    try (injection Hp as <-; rewrite Hi; reflexivity).
  destruct ((code =? 503)%Z || (code =? 500)%Z); [ | discriminate].
  injection Hp as <-. rewrite Hi. reflexivity.
Qed.

(** A failure that is retried: the pause, then the next iteration. *)
Lemma retry_loop_retried remaining i w e w1 t1 pause :
  func w = (Raise e, w1, t1) ->
  pause_after delay i e = Some pause ->
  i <> retries - 1 ->
  sleep_error pause = None ->
  retry_loop func retries delay (S remaining) i w =
  (let '(r, w2, t2) :=
     retry_loop func retries delay remaining (S i) (time_sleep D pause w1) in
   (r, w2, (t1 ++ [EvPrint (retry_message e pause); EvSleep pause] ++ t2)%list)).
Proof.
  intros H Hp Hi Hs.
  rewrite (retry_loop_pause remaining i w e w1 t1 pause H Hp Hi).
  rewrite (print_sleep_accepted _ _ _ _ _ Hs).
  destruct (retry_loop func retries delay remaining (S i) (time_sleep D pause w1))
    as [[r w2] t2].
  reflexivity.
Qed.

(** A failure that is to be retried, with a pause that [time.sleep] does not
    take: the message is printed and the exception of [time.sleep] ends the
    loop. *)
Lemma retry_loop_refused remaining i w e w1 t1 pause e' :
  func w = (Raise e, w1, t1) ->
  pause_after delay i e = Some pause ->
  i <> retries - 1 ->
  sleep_error pause = Some e' ->
  retry_loop func retries delay (S remaining) i w =
  (Raise e', w1, (t1 ++ [EvPrint (retry_message e pause)])%list).
Proof.
  intros H Hp Hi Hs.
  rewrite (retry_loop_pause remaining i w e w1 t1 pause H Hp Hi).
  now rewrite (print_sleep_refused _ _ _ _ _ _ Hs).
Qed.

(** A failure on the last iteration, or one that is not retried. *)
Lemma retry_loop_last remaining w e w1 t1 :
  func w = (Raise e, w1, t1) ->
  retry_loop func retries delay (S remaining) (retries - 1) w = (Raise e, w1, t1).
Proof.
  intros H. simpl.
  rewrite (bind_Ret _ _ _ _ _ _ _ _ _ (attempt_Raise _ _ _ _ _ _ _ H)).
  rewrite Nat.eqb_refl.
  destruct e as [ | | | code | what]; simpl; try now rewrite app_nil_r.
  destruct ((code =? 503)%Z || (code =? 500)%Z); simpl; now rewrite app_nil_r.
Qed.

Lemma retry_loop_not_retried remaining i w e w1 t1 :
  func w = (Raise e, w1, t1) ->
  pause_after delay i e = None ->
  retry_loop func retries delay (S remaining) i w = (Raise e, w1, t1).
Proof.
  intros H Hp. simpl.
  rewrite (bind_Ret _ _ _ _ _ _ _ _ _ (attempt_Raise _ _ _ _ _ _ _ H)).
  destruct e as [ | | | code | what]; simpl in Hp; try discriminate.
  destruct ((code =? 503)%Z || (code =? 500)%Z); [discriminate | ].
  simpl. now rewrite app_nil_r.
Qed.

End Retry_facts.

(** C4.  A [PyiCloudAPIResponseException] whose code is neither 503 nor 500
    leaves [retry_api_call] at once, on whichever iteration it occurs: the
    wrapper returns that exception with the world and the trace of the
    failing call itself, so there is no pause and no further call. *)
Theorem retry_non_transient_propagates
    (D : Drive) (A : Type) (func : M D A) (retries : nat) (delay : Z)
    (remaining i : nat) (w w1 : world D) (code : Z) (t1 : list (event D)) :
  func w = (Raise (APIResponse code), w1, t1) ->
  code <> 503%Z -> code <> 500%Z ->
  retry_loop func retries delay (S remaining) i w = (Raise (APIResponse code), w1, t1)
  /\ retry_api_call func (S remaining) delay w = (Raise (APIResponse code), w1, t1).
Proof.
  intros H H503 H500.
  assert (Hp : forall j, pause_after delay j (APIResponse code) = None).
  { intros j. simpl.
    apply Z.eqb_neq in H503. apply Z.eqb_neq in H500.
    now rewrite H503, H500. }
  split.
  - apply retry_loop_not_retried; auto.
  - unfold retry_api_call. apply retry_loop_not_retried; auto.
Qed.

Lemma retry_non_transient_propagates_witness :
  let func := upload (D := Sim.drive) Demo.app "x.cook" "X" in
  let w := Sim.initial Demo.deployed [Some (APIResponse 400)] in
  retry_api_call func 3 2 w =
  (Raise (APIResponse 400), Sim.initial Demo.deployed [],
   [Demo.Upload Demo.app "x.cook" "X"]).
Proof.
  intros func w.
  apply (retry_non_transient_propagates Sim.drive unit func 3 2 2 0 w
           (Sim.initial Demo.deployed []) 400 [Demo.Upload Demo.app "x.cook" "X"]).
  - reflexivity.
  - lia.
  - lia.
Defined.




(** *** Deleting a remote file *)

Section Delete_facts.

Variable D : Drive.

Lemma walk_only_looks_up (path_parts : list string) :
  forall (n : node D) w r w1 t,
    walk n path_parts w = (r, w1, t) -> filter is_mutation t = [].
Proof.
  induction path_parts as [ | part rest IH]; intros n w r w1 t H; simpl in H.
  - inversion H. reflexivity.
  - unfold bind, item, remote in H.
    destruct (getitem D n part w) as [[child | e] w0] eqn:Hg.
    + destruct (walk child rest w0) as [[r' w'] t'] eqn:Hw.
      inversion H; subst. simpl. eauto.
    + inversion H. reflexivity.
Qed.

Lemma delete_file_returns (icloud_folder : node D) relative_path w :
  fst (fst (delete_file icloud_folder relative_path w)) = Ret tt.
Proof.
  unfold delete_file. apply try_except_logged.
  intros e. destruct e; eexists; reflexivity.
Qed.

Lemma delete_file_walk_raises (icloud_folder : node D) relative_path w e w1 t1 :
  walk icloud_folder (PyStr.split PyStr.sep relative_path) w = (Raise e, w1, t1) ->
  delete_file icloud_folder relative_path w =
  (Ret tt, w1, (t1 ++ [EvPrint (delete_file_log relative_path e)])%list).
Proof.
  intros H. unfold delete_file.
  erewrite try_except_handled.
  2:{ cbv zeta. apply bind_Raise. exact H. }
  2:{ instantiate (1 := print (delete_file_log relative_path e)). now destruct e. }
  reflexivity.
Qed.

Lemma delete_file_delete_raises (icloud_folder : node D) relative_path w n w1 t1 e w2 :
  walk icloud_folder (PyStr.split PyStr.sep relative_path) w = (Ret n, w1, t1) ->
  node_delete D n w1 = (Raise e, w2) ->
  delete_file icloud_folder relative_path w =
  (Ret tt, w2,
   (t1 ++ [EvPrint (MsgDeleting relative_path); EvDelete n;
           EvPrint (delete_file_log relative_path e)])%list).
Proof.
  intros H Hd. unfold delete_file.
  erewrite try_except_handled.
  2:{ cbv zeta. erewrite bind_Ret by exact H.
      unfold bind, print, delete, remote. rewrite Hd. reflexivity. }
  2:{ instantiate (1 := print (delete_file_log relative_path e)). now destruct e. }
  unfold print. simpl. now rewrite <- app_assoc.
Qed.

Lemma delete_file_deletes (icloud_folder : node D) relative_path w n w1 t1 w2 :
  walk icloud_folder (PyStr.split PyStr.sep relative_path) w = (Ret n, w1, t1) ->
  node_delete D n w1 = (Ret tt, w2) ->
  delete_file icloud_folder relative_path w =
  (Ret tt, w2, (t1 ++ [EvPrint (MsgDeleting relative_path); EvDelete n])%list).
Proof.
  intros H Hd. unfold delete_file.
  erewrite try_except_Ret.
  2:{ cbv zeta. erewrite bind_Ret by exact H.
      unfold bind, print, delete, remote. rewrite Hd. reflexivity. }
  reflexivity.
Qed.

End Delete_facts.

(** C6.  Two calls of [delete_file] in a row on the same path: both return
    normally, whatever the drive answers.  When a segment lookup of the
    second call raises [KeyError] (the node is absent), the call stops there,
    prints that the file was not found and issues no mutation. *)
Theorem delete_file_twice
    (D : Drive) (icloud_folder : node D) (relative_path : string)
    (w w1 w2 : world D) (r1 r2 : outcome unit) (t1 t2 : list (event D)) :
  delete_file icloud_folder relative_path w = (r1, w1, t1) ->
  delete_file icloud_folder relative_path w1 = (r2, w2, t2) ->
  r1 = Ret tt /\ r2 = Ret tt
  /\ (forall w' t,
        walk icloud_folder (PyStr.split PyStr.sep relative_path) w1 = (Raise KeyError, w', t) ->
        w2 = w'
        /\ t2 = (t ++ [EvPrint (MsgNotFoundSkippingDelete relative_path)])%list
        /\ filter is_mutation t2 = []).
Proof.
  intros H1 H2.
  pose proof (delete_file_returns D icloud_folder relative_path w) as R1.
  pose proof (delete_file_returns D icloud_folder relative_path w1) as R2.
  rewrite H1 in R1. rewrite H2 in R2. simpl in R1, R2.
  repeat split; auto.
  - rewrite (delete_file_walk_raises D _ _ _ _ _ _ H) in H2. now inversion H2.
  - rewrite (delete_file_walk_raises D _ _ _ _ _ _ H) in H2. now inversion H2.
  - rewrite (delete_file_walk_raises D _ _ _ _ _ _ H) in H2. inversion H2; subst.
    rewrite filter_app, (walk_only_looks_up D _ _ _ _ _ _ H). reflexivity.
Qed.

Lemma delete_file_twice_witness :
  let w := Sim.initial Demo.deployed [] in
  let first := delete_file (D := Sim.drive) Demo.app "soup/x.cook" w in
  let second := delete_file (D := Sim.drive) Demo.app "soup/x.cook" (snd (fst first)) in
  snd first =
    [Demo.GetItem Demo.app "soup"; Demo.GetItem ["CooklangApp"; "soup"] "x.cook";
     Demo.Print (MsgDeleting "soup/x.cook"); Demo.Delete ["CooklangApp"; "soup"; "x.cook"]]
  /\ fst (fst second) = Ret tt
  /\ snd second =
    [Demo.GetItem Demo.app "soup"; Demo.GetItem ["CooklangApp"; "soup"] "x.cook";
     Demo.Print (MsgNotFoundSkippingDelete "soup/x.cook")].
Proof.
  intros w first second.
  destruct (delete_file_twice Sim.drive Demo.app "soup/x.cook"
              w (snd (fst first)) (snd (fst second))
              (fst (fst first)) (fst (fst second)) (snd first) (snd second)
              eq_refl eq_refl) as (_ & R2 & H).
  split; [reflexivity | split; [exact R2 | ]].
  destruct (H (snd (fst second))
              [Demo.GetItem Demo.app "soup"; Demo.GetItem ["CooklangApp"; "soup"] "x.cook"]
              eq_refl) as (_ & Ht & _).
  exact Ht.
Defined.

(** C10.  [delete_file] returns normally on every input.  A failure other
    than a lookup miss, during the walk or in the delete call itself, is
    printed and not raised, so the value returned is the same as for a
    successful delete or an absent path; the loop over the changes goes on
    with the next record after a delete, failed or not. *)
Theorem delete_file_never_raises
    (D : Drive) (L : Local) (icloud_folder : node D) (relative_path : string)
    (w : world D) :
  fst (fst (delete_file icloud_folder relative_path w)) = Ret tt
  /\ (forall e w1 t1,
        walk icloud_folder (PyStr.split PyStr.sep relative_path) w = (Raise e, w1, t1) ->
        e <> KeyError ->
        delete_file icloud_folder relative_path w =
        (Ret tt, w1, (t1 ++ [EvPrint (MsgErrorDeleting relative_path e)])%list))
  /\ (forall n w1 t1 e w2,
        walk icloud_folder (PyStr.split PyStr.sep relative_path) w = (Ret n, w1, t1) ->
        node_delete D n w1 = (Raise e, w2) ->
        e <> KeyError ->
        delete_file icloud_folder relative_path w =
        (Ret tt, w2,
         (t1 ++ [EvPrint (MsgDeleting relative_path); EvDelete n;
                 EvPrint (MsgErrorDeleting relative_path e)])%list))
  /\ (forall rest,
        under_whitelisted L relative_path = true ->
        for_each (apply_change L icloud_folder) (("D"%char, relative_path) :: rest) w =
        (let '(_, w1, t1) := delete_file icloud_folder relative_path w in
         let '(r, w2, t2) := for_each (apply_change L icloud_folder) rest w1 in
         (r, w2, (t1 ++ t2)%list))).
Proof.
  repeat split.
  - apply delete_file_returns.
  - intros e w1 t1 H He.
    rewrite (delete_file_walk_raises D _ _ _ _ _ _ H). now destruct e.
  - intros n w1 t1 e w2 H Hd He.
    rewrite (delete_file_delete_raises D _ _ _ _ _ _ _ _ H Hd). now destruct e.
  - intros rest Hw. simpl. unfold bind at 1. unfold apply_change at 1.
    rewrite Hw. simpl.
    pose proof (delete_file_returns D icloud_folder relative_path w) as R.
    destruct (delete_file icloud_folder relative_path w) as [[r w1] t1].
    simpl in R. subst r. reflexivity.
Qed.

Lemma delete_file_never_raises_witness :
  let w := Sim.initial Demo.deployed (Demo.after 2 [APIResponse 400]) in
  delete_file (D := Sim.drive) Demo.app "soup/x.cook" w =
  (Ret tt, Sim.initial Demo.deployed [],
   [Demo.GetItem Demo.app "soup"; Demo.GetItem ["CooklangApp"; "soup"] "x.cook";
    Demo.Print (MsgDeleting "soup/x.cook"); Demo.Delete ["CooklangApp"; "soup"; "x.cook"];
    Demo.Print (MsgErrorDeleting "soup/x.cook" (APIResponse 400))]).
Proof.
  intros w.
  destruct (delete_file_never_raises Sim.drive (Demo.local "") Demo.app "soup/x.cook" w)
    as (_ & _ & H & _).
  apply (H ["CooklangApp"; "soup"; "x.cook"]
           (Sim.initial Demo.deployed [Some (APIResponse 400)])
           [Demo.GetItem Demo.app "soup"; Demo.GetItem ["CooklangApp"; "soup"] "x.cook"]
           (APIResponse 400) (Sim.initial Demo.deployed [])).
  - reflexivity.
  - reflexivity.
  - discriminate.
Defined.

(** *** The loop over the change records *)

Section Loop_facts.

Variable D : Drive.
Variable L : Local.

Lemma for_each_skip A (body : A -> M D unit) (c : A) :
  (forall w, body c w = (Ret tt, w, [])) ->
  forall pre post w,
    for_each body (pre ++ c :: post) w = for_each body (pre ++ post) w.
Proof.
  intros Hc pre post. induction pre as [ | x pre IH]; intros w; simpl.
  - unfold bind. rewrite Hc.
    destruct (for_each body post w) as [[r w2] t2]. reflexivity.
  - unfold bind. destruct (body x w) as [[[u | e] w1] t1]; [ | reflexivity].
    now rewrite IH.
Qed.


Lemma not_under_whitelisted path :
  ~ in_whitelist (FOLDERS_TO_SYNC L) path -> under_whitelisted L path = false.
Proof.
  intros H. unfold under_whitelisted.
  destruct (existsb _ _) eqn:E; [ | reflexivity].
  apply existsb_exists in E. destruct E as (f & Hf & Hp).
  elim H. right. now exists f.
Qed.

Lemma not_listed path :
  ~ in_whitelist (FOLDERS_TO_SYNC L) path ->
  existsb (String.eqb path) (FOLDERS_TO_SYNC L) = false.
Proof.
  intros H. destruct (existsb _ _) eqn:E; [ | reflexivity].
  apply existsb_exists in E. destruct E as (f & Hf & Hp).
  apply String.eqb_eq in Hp. subst f. elim H. now left.
Qed.


Lemma get_git_changes_pure last_hash current_hash w :
  get_git_changes L last_hash current_hash w =
  (fst (fst (get_git_changes (D := D) L last_hash current_hash w)), w, []).
Proof.
  unfold get_git_changes, bind, lift.
  destruct (git_diff_name_status L last_hash current_hash); [ | reflexivity].
  destruct (negb (PyStr.truthy (PyStr.strip a))); reflexivity.
Qed.

End Loop_facts.

(** C2.  A change record whose path is outside the whitelist is passed over
    by the incremental loop, whatever its status: its iteration makes no
    call at all and leaves the world as it is, so the run is the run without
    that record.  The full walk passes over a file or directory with such a
    relative path in the same way. *)
Theorem outside_whitelist_no_remote_call
    (D : Drive) (L : Local) (app_folder : node D) (status : ascii) (path : string) :
  ~ in_whitelist (FOLDERS_TO_SYNC L) path ->
  (forall w, apply_change L app_folder (status, path) w = (Ret tt, w, []))
  /\ (forall pre post w,
        for_each (apply_change L app_folder) (pre ++ (status, path) :: post) w =
        for_each (apply_change L app_folder) (pre ++ post) w)
  /\ (forall here name content w,
        relpath_of here name = path ->
        sync_entry L here app_folder (File name content) w = (Ret tt, w, []))
  /\ (forall here name children w,
        relpath_of here name = path ->
        sync_entry L here app_folder (Dir name children) w = (Ret tt, w, [])).
Proof.
  intros H.
  assert (Hskip : forall w, apply_change L app_folder (status, path) w = (Ret tt, w, [])).
  { intros w. unfold apply_change. now rewrite (not_under_whitelisted L path H). }
  repeat split.
  - exact Hskip.
  - apply for_each_skip. exact Hskip.
  - intros here name content w <-. simpl.
    destruct (PyStr.startswith name "." || String.eqb name "__pycache__"); [reflexivity | ].
    now rewrite (not_under_whitelisted L _ H).
  - intros here name children w <-. simpl.
    destruct (PyStr.startswith name "." || String.eqb name "__pycache__"); [reflexivity | ].
    now rewrite (not_listed L _ H), (not_under_whitelisted L _ H).
Qed.

Lemma outside_whitelist_no_remote_call_witness :
  let L := Demo.local "" in
  ~ in_whitelist (FOLDERS_TO_SYNC L) "README.md"
  /\ forall w,
       apply_change (D := Sim.drive) L Demo.app ("M"%char, "README.md") w = (Ret tt, w, []).
Proof.
  intros L.
  assert (H : ~ in_whitelist (FOLDERS_TO_SYNC L) "README.md").
  { intros [H | (f & Hf & Hp)].
    - vm_compute in H. intuition discriminate.
    - vm_compute in Hf.
      repeat (destruct Hf as [<- | Hf]; [vm_compute in Hp; discriminate | ]).
      exact Hf. }
  split; [exact H | ].
  exact (proj1 (outside_whitelist_no_remote_call Sim.drive L Demo.app "M"%char "README.md" H)).
Defined.

(** C1, as the code has it.  When the diff between the recorded and the
    current revision yields no change record, the incremental branch only
    prints: it makes no call to the drive, leaves the world as it is and
    does not write the marker. *)
Theorem no_changes_no_calls_no_marker
    (D : Drive) (L : Local) (app_folder : node D) (last_hash current_hash : string)
    (w : world D) :
  fst (fst (get_git_changes (D := D) L last_hash current_hash w)) = Ret [] ->
  incremental_sync L app_folder last_hash current_hash w =
  (Ret tt, w,
   [EvPrint (MsgFoundLastDeployed last_hash); EvPrint MsgCalculatingChanges;
    EvPrint MsgNoChanges])
  /\ filter is_remote_call
       (snd (incremental_sync L app_folder last_hash current_hash w)) = []
  /\ ~ writes_marker app_folder current_hash
       (snd (incremental_sync L app_folder last_hash current_hash w)).
Proof.
  intros H.
  assert (E : incremental_sync L app_folder last_hash current_hash w =
              (Ret tt, w,
               [EvPrint (MsgFoundLastDeployed last_hash); EvPrint MsgCalculatingChanges;
                EvPrint MsgNoChanges])).
  { unfold incremental_sync, bind at 1 2 3, print.
    rewrite (get_git_changes_pure D L), H. reflexivity. }
  rewrite E. repeat split.
  unfold writes_marker. simpl. intuition discriminate.
Qed.

Lemma no_changes_no_calls_no_marker_witness :
  let L := Demo.local "" in
  let w := Sim.initial Demo.deployed [] in
  incremental_sync (D := Sim.drive) L Demo.app "aaa" "bbb" w =
  (Ret tt, w,
   [Demo.Print (MsgFoundLastDeployed "aaa"); Demo.Print MsgCalculatingChanges;
    Demo.Print MsgNoChanges]).
Proof.
  intros L w.
  exact (proj1 (no_changes_no_calls_no_marker Sim.drive L Demo.app "aaa" "bbb" w eq_refl)).
Defined.

(** C1 as stated fails: with the marker at [aaa], the working tree at
    [bbb] and an empty diff, the run uploads nothing, the marker upload
    included, and the marker on the drive still reads [aaa]. *)
Lemma no_changes_marker_left_alone :
  let L := Demo.local "" in
  let w := Sim.initial Demo.deployed [] in
  let '(r, w', t) := incremental_sync (D := Sim.drive) L Demo.app "aaa" "bbb" w in
  fst (fst (get_git_changes (D := Sim.drive) L "aaa" "bbb" w)) = Ret []
  /\ ~ (filter is_mutation t = [] /\ writes_marker (D := Sim.drive) Demo.app "bbb" t)
  /\ Sim.store w' ["CooklangApp"; "last_deployed_commit.txt"] = Some (Sim.RFile "aaa").
Proof.
  vm_compute. repeat split.
  intros [_ H]. intuition discriminate.
Qed.




(** *** The marker read at start-up *)

Section Main_facts.

Variable D : Drive.
Variable L : Local.

Lemma marker_read_failure (app_folder : node D) w e w2 t2 :
  marker_read_raises app_folder w e w2 t2 ->
  get_last_deployed_commit app_folder w =
  (Ret None, w2, (t2 ++ marker_read_log e)%list).
Proof.
  intros Hr. unfold get_last_deployed_commit.
  erewrite try_except_handled with (e := e) (w1 := w2) (t1 := t2)
    (h := match e with
          | KeyError => ret None
          | _ => bind (print (MsgCouldNotReadState e)) (fun _ => ret None)
          end).
  - destruct e; reflexivity.
  - destruct Hr as [[Hg ->] | (n & w1 & Hg & Ho & ->)].
    + unfold bind, item, remote. now rewrite Hg.
    + unfold bind, item, open_content, remote. rewrite Hg, Ho. reflexivity.
  - destruct e; reflexivity.
Qed.

Lemma main_without_marker (drive app_folder : node D) w w1 t1 out w2 t2 :
  get_or_create_folder drive ICLOUD_FOLDER_NAME w = (Ret app_folder, w1, t1) ->
  git_rev_parse_HEAD L = Ret out ->
  get_last_deployed_commit app_folder w1 = (Ret None, w2, t2) ->
  main L drive w =
  (let '(r, w3, t3) := full_sync L app_folder (PyStr.strip out) w2 in
   (r, w3,
    ([EvPrint MsgAuthenticated; EvPrint MsgAccessingDrive] ++ t1
     ++ [EvPrint (MsgDeployingTo ICLOUD_FOLDER_NAME);
         EvPrint (MsgCurrentCommit (PyStr.strip out))]
     ++ t2 ++ t3
     ++ match r with
        | Ret _ => [EvPrint MsgDeploymentComplete]
        | Raise _ => []
        end)%list)).
Proof.
  intros H1 H2 H3.
  unfold main, get_current_commit_hash, bind, print, lift, ret.
  cbv beta iota. rewrite H1. cbv beta iota. rewrite H2. cbv beta iota.
  rewrite H3. cbv beta iota.
  destruct (full_sync L app_folder (PyStr.strip out) w2) as [[[[] | e] w3] t3];
    simpl; rewrite <- ?app_assoc, ?app_nil_r; reflexivity.
Qed.

End Main_facts.

(** C7, as the code has it.  When the lookup of the marker or the download
    of its content raises, whatever the exception, [get_last_deployed_commit]
    answers [None]: without a word for a [KeyError], which the lookup raises
    for a missing marker but which is taken the same way when the download
    raises it, and after a warning for every other exception, a content that
    cannot be decoded among them.  [main] does not stop: it goes on as for a
    first deployment, with the full walk of the working tree and then the
    marker write. *)
Theorem marker_read_failure_starts_full_sync
    (D : Drive) (L : Local) (drive app_folder : node D) (w w1 w2 : world D)
    (t1 t2 : list (event D)) (out : string) (e : exn) :
  get_or_create_folder drive ICLOUD_FOLDER_NAME w = (Ret app_folder, w1, t1) ->
  git_rev_parse_HEAD L = Ret out ->
  marker_read_raises app_folder w1 e w2 t2 ->
  get_last_deployed_commit app_folder w1 = (Ret None, w2, (t2 ++ marker_read_log e)%list)
  /\ main L drive w =
     (let '(r, w3, t3) := full_sync L app_folder (PyStr.strip out) w2 in
      (r, w3,
       ([EvPrint MsgAuthenticated; EvPrint MsgAccessingDrive] ++ t1
        ++ [EvPrint (MsgDeployingTo ICLOUD_FOLDER_NAME);
            EvPrint (MsgCurrentCommit (PyStr.strip out))]
        ++ (t2 ++ marker_read_log e) ++ t3
        ++ match r with
           | Ret _ => [EvPrint MsgDeploymentComplete]
           | Raise _ => []
           end)%list))
  /\ (forall current_hash w3 t3,
        sync_directory L "." (cwd L) app_folder w2 = (Ret tt, w3, t3) ->
        full_sync L app_folder current_hash w2 =
        (let '(r, w4, t4) := update_last_deployed_commit app_folder current_hash w3 in
         (r, w4, ([EvPrint MsgNoPreviousDeployment] ++ t3 ++ t4)%list))).
Proof.
  intros H1 H2 Hr.
  pose proof (marker_read_failure D app_folder w1 e w2 t2 Hr) as H3.
  repeat split.
  - exact H3.
  - exact (main_without_marker D L drive app_folder w w1 t1 out w2 _ H1 H2 H3).
  - intros current_hash w3 t3 Hs.
    unfold full_sync, bind at 1, print. unfold bind at 1. rewrite Hs.
    destruct (update_last_deployed_commit app_folder current_hash w3) as [[r w4] t4].
    reflexivity.
Qed.

Lemma marker_read_failure_starts_full_sync_witness :
  let L := Demo.local "" in
  let w := Sim.initial Demo.deployed (Demo.after 2 [KeyError]) in
  main (D := Sim.drive) L [] w =
  (let '(r, w3, t3) := full_sync L Demo.app "bbb" (Sim.initial Demo.deployed []) in
   (r, w3,
    ([Demo.Print MsgAuthenticated; Demo.Print MsgAccessingDrive;
      Demo.GetItem [] "CooklangApp";
      Demo.Print (MsgDeployingTo "CooklangApp"); Demo.Print (MsgCurrentCommit "bbb");
      Demo.GetItem Demo.app "last_deployed_commit.txt";
      Demo.Open ["CooklangApp"; "last_deployed_commit.txt"]]
     ++ t3
     ++ match r with
        | Ret _ => [Demo.Print MsgDeploymentComplete]
        | Raise _ => []
        end)%list)).
Proof.
  intros L w.
  assert (Hr : marker_read_raises (D := Sim.drive) Demo.app
                 (Sim.initial Demo.deployed (Demo.after 1 [KeyError]))
                 KeyError (Sim.initial Demo.deployed [])
                 [Demo.GetItem Demo.app STATE_FILE_NAME;
                  Demo.Open ["CooklangApp"; "last_deployed_commit.txt"]]).
  { right. exists ["CooklangApp"; "last_deployed_commit.txt"],
      (Sim.initial Demo.deployed [Some KeyError]).
    repeat split; reflexivity. }
  exact (proj1 (proj2
    (marker_read_failure_starts_full_sync Sim.drive L [] Demo.app w
       (Sim.initial Demo.deployed (Demo.after 1 [KeyError]))
       (Sim.initial Demo.deployed [])
       [Demo.GetItem [] "CooklangApp"]
       [Demo.GetItem Demo.app STATE_FILE_NAME;
        Demo.Open ["CooklangApp"; "last_deployed_commit.txt"]]
       ("bbb" ++ Demo.lf) KeyError
       eq_refl eq_refl Hr))).
Defined.

(** C7 as stated fails: the marker lookup is answered with an internal
    error (code 500); the run does not stop, it uploads the whitelisted
    files of the working tree and writes the marker. *)
Lemma marker_read_failure_does_not_abort :
  let L := Demo.local "" in
  let w := Sim.initial Demo.deployed (Demo.after 1 [APIResponse 500]) in
  let '(r, w', t) := main (D := Sim.drive) L [] w in
  In (Demo.GetItem Demo.app "last_deployed_commit.txt") t
  /\ In (Demo.Print (MsgCouldNotReadState (APIResponse 500))) t
  /\ r = Ret tt
  /\ filter is_mutation t <> []
  /\ In (Demo.Upload ["CooklangApp"; "soup"] "x.cook" "X") t
  /\ writes_marker (D := Sim.drive) Demo.app "bbb" t
  /\ Sim.store w' ["CooklangApp"; "last_deployed_commit.txt"] = Some (Sim.RFile "bbb").
Proof.
  vm_compute. repeat split; try tauto; discriminate.
Qed.

(** *** The marker on the in-memory drive *)

Section Sim_facts.

Lemma path_eqb_refl p : Sim.path_eqb p p = true.
Proof.
  induction p as [ | a p IH]; simpl; [reflexivity | ].
  now rewrite String.eqb_refl, IH.
Qed.

Lemma token_not_CR c : PyStr.is_space c = false -> Ascii.eqb c PyStr.CR = false.
Proof.
  intros H. destruct (Ascii.eqb c PyStr.CR) eqn:E; [ | reflexivity].
  apply Ascii.eqb_eq in E. subst c. discriminate H.
Qed.

Lemma token_universal_newlines s :
  is_token s = true -> PyStr.universal_newlines s = s.
Proof.
  unfold is_token. induction s as [ | c s IH]; simpl; intros H; [reflexivity | ].
  apply andb_prop in H. destruct H as [Hc Hs].
  apply negb_true_iff in Hc.
  rewrite (token_not_CR c Hc). now rewrite (IH Hs).
Qed.

Lemma token_lstrip s : is_token s = true -> PyStr.lstrip s = s.
Proof.
  unfold is_token. destruct s as [ | c s]; simpl; intros H; [reflexivity | ].
  apply andb_prop in H. destruct H as [Hc _].
  apply negb_true_iff in Hc. now rewrite Hc.
Qed.

Lemma token_rstrip s : is_token s = true -> PyStr.rstrip s = s.
Proof.
  unfold is_token. induction s as [ | c s IH]; simpl; intros H; [reflexivity | ].
  apply andb_prop in H. destruct H as [Hc Hs].
  apply negb_true_iff in Hc.
  rewrite (IH Hs), Hc. now destruct s.
Qed.

Lemma token_read_back s :
  is_token s = true -> PyStr.strip (PyStr.universal_newlines s) = s.
Proof.
  intros H. rewrite (token_universal_newlines s H).
  unfold PyStr.strip. now rewrite (token_lstrip s H), (token_rstrip s H).
Qed.

Lemma sim_marker_write (app_folder : node Sim.drive) commit_hash (w : Sim.state) :
  Sim.faults w = [] ->
  exists w1 t1,
    update_last_deployed_commit (D := Sim.drive) app_folder commit_hash w = (Ret tt, w1, t1)
    /\ Sim.faults w1 = []
    /\ Sim.store w1 (app_folder ++ [STATE_FILE_NAME])%list = Some (Sim.RFile commit_hash).
Proof.
  destruct w as [st fl ma ck]. simpl. intros ->.
  unfold update_last_deployed_commit, retry_default,
    retry_api_call, try_except, bind, attempt, item, delete, upload,
    remote, print, ret, on_KeyError.
  simpl. unfold Sim.call, Sim.next_fault. simpl.
  destruct (st (app_folder ++ [STATE_FILE_NAME])%list) as [old | ] eqn:Hst; simpl;
    do 2 eexists; (split; [reflexivity | ]); simpl;
    unfold Sim.put; rewrite path_eqb_refl; split; reflexivity.
Qed.

Lemma sim_marker_read (app_folder : node Sim.drive) content (w : Sim.state) :
  Sim.faults w = [] ->
  Sim.store w (app_folder ++ [STATE_FILE_NAME])%list = Some (Sim.RFile content) ->
  get_last_deployed_commit (D := Sim.drive) app_folder w =
  (Ret (Some (PyStr.strip (PyStr.universal_newlines content))), w,
   [Demo.GetItem app_folder STATE_FILE_NAME;
    Demo.Open (app_folder ++ [STATE_FILE_NAME])%list]).
Proof.
  destruct w as [st fl ma ck]. simpl. intros -> Hst.
  unfold get_last_deployed_commit, try_except, bind, attempt, item, open_content,
    remote, print, ret.
  simpl. unfold Sim.call, Sim.next_fault. simpl.
  rewrite Hst. simpl. rewrite Hst. reflexivity.
Qed.

End Sim_facts.

(** C5.  On the in-memory drive, with no scripted failure, writing the
    marker for a revision id [R] free of white space (such is every commit
    hash git prints) and then reading the marker returns exactly [R]. *)
Theorem marker_round_trip
    (app_folder : node Sim.drive) (R : string) (w : Sim.state) :
  Sim.faults w = [] ->
  is_token R = true ->
  exists w1 t1,
    update_last_deployed_commit (D := Sim.drive) app_folder R w = (Ret tt, w1, t1)
    /\ get_last_deployed_commit (D := Sim.drive) app_folder w1 =
       (Ret (Some R), w1,
        [Demo.GetItem app_folder STATE_FILE_NAME;
         Demo.Open (app_folder ++ [STATE_FILE_NAME])%list]).
Proof.
  intros Hf Ht.
  destruct (sim_marker_write app_folder R w Hf) as (w1 & t1 & Hw & Hf1 & Hs).
  exists w1, t1. split; [exact Hw | ].
  rewrite (sim_marker_read app_folder R w1 Hf1 Hs).
  now rewrite (token_read_back R Ht).
Qed.

Lemma marker_round_trip_witness :
  let R := "4f2a9c0de1b357a86d4c2e9f0b1a7c3d5e6f8091" in
  let w := Sim.initial Demo.deployed [] in
  exists w1 t1,
    update_last_deployed_commit (D := Sim.drive) Demo.app R w = (Ret tt, w1, t1)
    /\ get_last_deployed_commit (D := Sim.drive) Demo.app w1 =
       (Ret (Some R), w1,
        [Demo.GetItem Demo.app "last_deployed_commit.txt";
         Demo.Open ["CooklangApp"; "last_deployed_commit.txt"]]).
Proof.
  intros R w.
  exact (marker_round_trip Demo.app R w eq_refl eq_refl).
Defined.

(** C9, the code at a rename.  For the line git prints for a rename, the
    change record carries the old path; the file exists under the new path
    only, so the run warns that [soup/old.cook] is not found and uploads
    nothing but the marker: [soup/new.cook] never reaches the drive. *)
Theorem rename_is_applied_to_the_old_path :
  let diff := "R100" ++ Demo.tab ++ "soup/old.cook" ++ Demo.tab ++ "soup/new.cook" in
  let L := Demo.local diff in
  let w := Sim.initial Demo.deployed [] in
  fst (fst (get_git_changes (D := Sim.drive) L "aaa" "bbb" w))
    = Ret [("R"%char, "soup/old.cook")]
  /\ os_path_exists L "soup/new.cook" = true
  /\ os_path_exists L "soup/old.cook" = false
  /\ snd (incremental_sync (D := Sim.drive) L Demo.app "aaa" "bbb" w) =
     [Demo.Print (MsgFoundLastDeployed "aaa"); Demo.Print MsgCalculatingChanges;
      Demo.Print (MsgFoundChangedFiles 1);
      Demo.Print (MsgChangedButNotFound "soup/old.cook");
      Demo.Print (MsgUpdatingState "bbb");
      Demo.GetItem Demo.app "last_deployed_commit.txt";
      Demo.Delete ["CooklangApp"; "last_deployed_commit.txt"];
      Demo.Upload Demo.app "last_deployed_commit.txt" "bbb"]
  /\ Sim.store (snd (fst (incremental_sync (D := Sim.drive) L Demo.app "aaa" "bbb" w)))
       ["CooklangApp"; "soup"; "new.cook"] = None.
Proof.
  vm_compute. repeat split.
Qed.

(** *** More on the retry wrapper *)

Section Retry_more.

Variable D : Drive.
Variable A : Type.
Variable func : M D A.
Variables (retries : nat) (delay : Z).

Lemma sleeps_app (t1 t2 : list (event D)) :
  sleeps (t1 ++ t2) = (sleeps t1 ++ sleeps t2)%list.
Proof. unfold sleeps. apply flat_map_app. Qed.

Lemma total_pause_app (t1 t2 : list (event D)) :
  total_pause (t1 ++ t2) = (total_pause t1 + total_pause t2)%Z.
Proof.
  unfold total_pause. rewrite sleeps_app.
  induction (sleeps t1) as [ | s l IH]; simpl; [reflexivity | ]. rewrite IH. lia.
Qed.

(** The ways one iteration can go. *)
Lemma retry_loop_cases remaining i w :
  (exists a w1 t1,
      func w = (Ret a, w1, t1)
      /\ retry_loop func retries delay (S remaining) i w = (Ret (Some a), w1, t1))
  \/ (exists e w1 t1,
      func w = (Raise e, w1, t1)
      /\ (i = retries - 1 \/ pause_after delay i e = None)
      /\ retry_loop func retries delay (S remaining) i w = (Raise e, w1, t1))
  \/ (exists e w1 t1 pause,
      func w = (Raise e, w1, t1)
      /\ i <> retries - 1
      /\ pause_after delay i e = Some pause
      /\ sleep_error pause = None
      /\ retry_loop func retries delay (S remaining) i w =
         (let '(r, w2, t2) :=
            retry_loop func retries delay remaining (S i) (time_sleep D pause w1) in
          (r, w2, (t1 ++ [EvPrint (retry_message e pause); EvSleep pause] ++ t2)%list)))
  \/ (exists e w1 t1 pause e',
      func w = (Raise e, w1, t1)
      /\ i <> retries - 1
      /\ pause_after delay i e = Some pause
      /\ sleep_error pause = Some e'
      /\ retry_loop func retries delay (S remaining) i w =
         (Raise e', w1, (t1 ++ [EvPrint (retry_message e pause)])%list)).
Proof.
  destruct (func w) as [[[a | e] w1] t1] eqn:Hf.
  - left. exists a, w1, t1. split; [reflexivity | ].
    now apply retry_loop_success.
  - destruct (Nat.eq_dec i (retries - 1)) as [-> | Hi].
    + right; left. exists e, w1, t1. repeat split; auto.
      now apply retry_loop_last.
    + destruct (pause_after delay i e) as [pause | ] eqn:Hp.
      * destruct (sleep_error pause) as [e' | ] eqn:Hs.
        -- right; right; right. exists e, w1, t1, pause, e'. repeat split; auto.
           now apply retry_loop_refused.
        -- right; right; left. exists e, w1, t1, pause. repeat split; auto.
           now apply retry_loop_retried.
      * right; left. exists e, w1, t1. repeat split; auto.
        now apply retry_loop_not_retried.
Qed.

(** Whatever the loop returns is what the last call of [func] returned, in
    the world that call left; what it raises is what the last call of
    [func] raised, or what [time.sleep] raised for the pause after it. *)
Lemma retry_loop_origin remaining :
  forall i w r w' t,
    retry_loop func retries delay remaining i w = (r, w', t) ->
    match r with
    | Ret None => True
    | Ret (Some a) =>
        exists w0 t0 before, func w0 = (Ret a, w', t0) /\ t = (before ++ t0)%list
    | Raise e =>
        (exists w0 t0 before, func w0 = (Raise e, w', t0) /\ t = (before ++ t0)%list)
        \/ (exists w0 t0 before e0 j pause,
              func w0 = (Raise e0, w', t0)
              /\ pause_after delay j e0 = Some pause
              /\ sleep_error pause = Some e
              /\ t = (before ++ t0 ++ [EvPrint (retry_message e0 pause)])%list)
    end.
Proof.
  induction remaining as [ | remaining IH]; intros i w r w' t H.
  - simpl in H. inversion H. exact I.
  - destruct (retry_loop_cases remaining i w)
      as [(a & w1 & t1 & Hf & E)
         | [(e & w1 & t1 & Hf & _ & E)
           | [(e & w1 & t1 & p & Hf & _ & _ & _ & E)
             | (e & w1 & t1 & p & e' & Hf & _ & Hp & Hs & E)]]];
      rewrite E in H.
    + inversion H; subst. exists w, t, []. auto.
    + inversion H; subst. left. exists w, t, []. auto.
    + destruct (retry_loop func retries delay remaining (S i) (time_sleep D p w1))
        as [[r2 w2] t2] eqn:E2.
      inversion H; subst. specialize (IH _ _ _ _ _ E2).
      destruct r as [[a | ] | e2]; [ | exact I | ].
      * destruct IH as (w0 & t0 & before & Hf0 & ->).
        exists w0, t0, (t1 ++ [EvPrint (retry_message e p); EvSleep p] ++ before)%list.
        split; [exact Hf0 | now rewrite <- !app_assoc].
      * destruct IH as [(w0 & t0 & before & Hf0 & ->)
                       | (w0 & t0 & before & e0 & j & q & Hf0 & Hq & Hs & ->)].
        -- left.
           exists w0, t0, (t1 ++ [EvPrint (retry_message e p); EvSleep p] ++ before)%list.
           split; [exact Hf0 | now rewrite <- !app_assoc].
        -- right.
           exists w0, t0, (t1 ++ [EvPrint (retry_message e p); EvSleep p] ++ before)%list,
             e0, j, q.
           repeat split; auto. now rewrite <- !app_assoc.
    + inversion H; subst. right. exists w, t1, [], e, i, p. auto.
Qed.

Lemma pause_after_le i e pause :
  (0 <= delay)%Z -> pause_after delay i e = Some pause ->
  (0 <= pause <= delay * 2 ^ Z.of_nat i)%Z.
Proof.
  intros Hd H.
  assert (1 <= 2 ^ Z.of_nat i)%Z by (apply Z.pow_le_mono_r with (b := 0%Z); lia).
  destruct e; simpl in H; try (injection H as <-; nia).
  destruct ((code =? 503)%Z || (code =? 500)%Z); [ | discriminate].
  injection H as <-. nia.
Qed.

(** The pauses of the iterations [i, ..., retries - 1] add up to at most
    [delay * (2^(retries-1) - 2^i)], and there are at most [remaining - 1]
    of them, when [func] itself never sleeps. *)
Lemma retry_loop_pause_bound remaining :
  (0 <= delay)%Z ->
  (forall w, sleeps (snd (func w)) = []) ->
  forall i w,
    i + S remaining = retries ->
    let t := snd (retry_loop func retries delay (S remaining) i w) in
    (0 <= total_pause t <= delay * (2 ^ Z.of_nat (retries - 1) - 2 ^ Z.of_nat i))%Z
    /\ length (sleeps t) <= remaining.
Proof.
  intros Hd Hquiet.
  assert (Hq : forall w r w1 t1, func w = (r, w1, t1) -> sleeps t1 = []).
  { intros w r w1 t1 H. specialize (Hquiet w). now rewrite H in Hquiet. }
  assert (Hq0 : forall w r w1 t1, func w = (r, w1, t1) -> total_pause t1 = 0%Z).
  { intros w r w1 t1 H. unfold total_pause. now rewrite (Hq _ _ _ _ H). }
  induction remaining as [ | remaining IH]; intros i w Hi t; subst t;
    match goal with
    | |- context [retry_loop _ _ _ (S ?n) _ _] =>
        destruct (retry_loop_cases n i w)
          as [(a & w1 & t1 & Hf & E)
             | [(e & w1 & t1 & Hf & _ & E)
               | [(e & w1 & t1 & p & Hf & Hn & Hp & _ & E)
                 | (e & w1 & t1 & p & e' & Hf & _ & _ & _ & E)]]]
    end;
    rewrite E;
    try (cbn [snd]; rewrite ?total_pause_app, ?sleeps_app, (Hq0 _ _ _ _ Hf), (Hq _ _ _ _ Hf);
         unfold total_pause; simpl;
         assert (2 ^ Z.of_nat i <= 2 ^ Z.of_nat (retries - 1))%Z
           by (apply Z.pow_le_mono_r; lia);
         split; [nia | lia]).
  - elim Hn. lia.
  - specialize (IH (S i) (time_sleep D p w1) ltac:(lia)). cbv zeta in IH.
    destruct (retry_loop func retries delay (S remaining) (S i) (time_sleep D p w1))
      as [[r w2] t2]. cbn [snd] in *.
    rewrite !total_pause_app, !sleeps_app, (Hq0 _ _ _ _ Hf), (Hq _ _ _ _ Hf).
    pose proof (pause_after_le i e p Hd Hp) as Hple.
    replace (total_pause [EvPrint (retry_message e p); EvSleep p]) with p
      by (unfold total_pause; simpl; lia).
    assert (E2 : (2 ^ Z.of_nat (S i) = 2 * 2 ^ Z.of_nat i)%Z).
    { rewrite Nat2Z.inj_succ, Z.pow_succ_r; lia. }
    rewrite E2 in IH. simpl. split; [nia | lia].
Qed.

(** The number of calls to the drive in a trace. *)
Lemma calls_app (t1 t2 : list (event D)) :
  length (filter is_remote_call (t1 ++ t2))
  = length (filter is_remote_call t1) + length (filter is_remote_call t2).
Proof. now rewrite filter_app, length_app. Qed.

(** When [func] is one call to the drive and does not sleep, the iterations
    [i, ..., retries - 1] make one call more than they pause, and at most
    one call each. *)
Lemma retry_loop_calls remaining :
  (forall w, length (filter is_remote_call (snd (func w))) = 1) ->
  (forall w, sleeps (snd (func w)) = []) ->
  forall i w,
    i + S remaining = retries ->
    let t := snd (retry_loop func retries delay (S remaining) i w) in
    length (filter is_remote_call t) = S (length (sleeps t))
    /\ length (filter is_remote_call t) <= S remaining.
Proof.
  intros Hone Hquiet.
  assert (Hc : forall w r w1 t1, func w = (r, w1, t1) ->
                 length (filter is_remote_call t1) = 1).
  { intros w r w1 t1 H. specialize (Hone w). now rewrite H in Hone. }
  assert (Hq : forall w r w1 t1, func w = (r, w1, t1) -> sleeps t1 = []).
  { intros w r w1 t1 H. specialize (Hquiet w). now rewrite H in Hquiet. }
  induction remaining as [ | remaining IH]; intros i w Hi t; subst t;
    match goal with
    | |- context [retry_loop _ _ _ (S ?n) _ _] =>
        destruct (retry_loop_cases n i w)
          as [(a & w1 & t1 & Hf & E)
             | [(e & w1 & t1 & Hf & _ & E)
               | [(e & w1 & t1 & p & Hf & Hn & _ & _ & E)
                 | (e & w1 & t1 & p & e' & Hf & _ & _ & _ & E)]]]
    end;
    rewrite E;
    try (cbn [snd]; rewrite ?calls_app, ?sleeps_app, (Hc _ _ _ _ Hf), (Hq _ _ _ _ Hf);
         simpl; split; lia).
  - elim Hn. lia.
  - specialize (IH (S i) (time_sleep D p w1) ltac:(lia)). cbv zeta in IH.
    destruct (retry_loop func retries delay (S remaining) (S i) (time_sleep D p w1))
      as [[r w2] t2]. cbn [snd] in *.
    rewrite !calls_app, !sleeps_app, (Hc _ _ _ _ Hf), (Hq _ _ _ _ Hf).
    simpl. split; lia.
Qed.

End Retry_more.

Lemma remote_quiet (D : Drive) (A : Type) (ev : event D)
    (op : world D -> outcome A * world D) (w : world D) :
  is_remote_call ev = true -> sleeps (snd (remote D ev op w)) = [].
Proof.
  intros H. unfold remote. destruct (op w) as [r w1]. simpl.
  destruct ev; try reflexivity; discriminate.
Qed.

Lemma remote_one_call (D : Drive) (A : Type) (ev : event D)
    (op : world D -> outcome A * world D) (w : world D) :
  is_remote_call ev = true ->
  length (filter is_remote_call (snd (remote D ev op w))) = 1.
Proof.
  intros H. unfold remote. destruct (op w) as [r w1]. simpl. now rewrite H.
Qed.

(** X1.  When the wrapped call is one call to the drive that does not sleep
    itself, as [upload] and [mkdir] are, a run of [retry_api_call] makes at
    most [retries] calls, none at all when [retries] is 0 (it then returns
    [None] at once), and with [retries] above 0 it makes exactly one call
    more than it pauses: every pause is followed by another attempt, every
    attempt but the first comes after a pause. *)
Theorem retry_calls_at_most_retries_times
    (D : Drive) (A : Type) (func : M D A) (retries : nat) (delay : Z) (w : world D) :
  (forall w0, length (filter is_remote_call (snd (func w0))) = 1) ->
  (forall w0, sleeps (snd (func w0)) = []) ->
  let t := snd (retry_api_call func retries delay w) in
  length (filter is_remote_call t) <= retries
  /\ (retries = 0 -> retry_api_call func retries delay w = (Ret None, w, []))
  /\ (0 < retries -> length (filter is_remote_call t) = S (length (sleeps t))).
Proof.
  intros Hone Hquiet t. subst t. unfold retry_api_call.
  destruct retries as [ | n].
  - simpl. repeat split; [lia | lia].
  - pose proof (retry_loop_calls D A func (S n) delay n Hone Hquiet 0 w ltac:(lia)) as H.
    cbv zeta in H. destruct H as [H1 H2].
    repeat split; [exact H2 | discriminate | intros _; exact H1].
Qed.

Lemma retry_calls_at_most_retries_times_witness :
  let func := upload (D := Sim.drive) Demo.app "x.cook" "X" in
  let w := Sim.initial Demo.deployed
             [Some (APIResponse 503); Some (OtherException "ConnectionError");
              Some (APIResponse 500)] in
  let t := snd (retry_api_call func 3 2 w) in
  length (filter is_remote_call t) <= 3
  /\ length (filter is_remote_call t) = S (length (sleeps t)).
Proof.
  intros func w.
  destruct (retry_calls_at_most_retries_times Sim.drive unit func 3 2 w) as (H1 & _ & H2).
  - intros w0. apply remote_one_call. reflexivity.
  - intros w0. apply remote_quiet. reflexivity.
  - split; [exact H1 | apply H2; lia].
Defined.

(** X2.  The value [retry_api_call] returns is the value of the last call of
    [func]; the world it leaves is the one that call left and the trace ends
    with the trace of that call.  The exception it raises is the exception
    of the last call of [func], or else the exception of [time.sleep] for
    the pause that was to follow a failed call: then the trace ends with
    the retry message for that failure. *)
Theorem retry_result_is_last_call
    (D : Drive) (A : Type) (func : M D A) (retries : nat) (delay : Z) (w : world D) :
  let '(r, w', t) := retry_api_call func retries delay w in
  match r with
  | Ret None => True
  | Ret (Some a) =>
      exists w0 t0 before, func w0 = (Ret a, w', t0) /\ t = (before ++ t0)%list
  | Raise e =>
      (exists w0 t0 before, func w0 = (Raise e, w', t0) /\ t = (before ++ t0)%list)
      \/ (exists w0 t0 before e0 j pause,
            func w0 = (Raise e0, w', t0)
            /\ pause_after delay j e0 = Some pause
            /\ sleep_error pause = Some e
            /\ t = (before ++ t0 ++ [EvPrint (retry_message e0 pause)])%list)
  end.
Proof.
  destruct (retry_api_call func retries delay w) as [[r w'] t] eqn:E.
  exact (retry_loop_origin D A func retries delay retries 0 w r w' t E).
Qed.

(** X3.  When the wrapped call does not sleep itself and [delay] is not
    negative, a run of [retry_api_call] with [retries] attempts pauses at
    most [retries - 1] times and for at most [delay * (2^(retries-1) - 1)]
    seconds in total: 6 seconds with the defaults. *)
Theorem retry_total_pause_bounded
    (D : Drive) (A : Type) (func : M D A) (retries : nat) (delay : Z) (w : world D) :
  (0 <= delay)%Z ->
  (forall w0, sleeps (snd (func w0)) = []) ->
  let t := snd (retry_api_call func retries delay w) in
  (0 <= total_pause t <= delay * (2 ^ Z.of_nat (retries - 1) - 1))%Z
  /\ length (sleeps t) <= retries - 1.
Proof.
  intros Hd Hq t. subst t. unfold retry_api_call.
  destruct retries as [ | n].
  - simpl. unfold total_pause. simpl. split; lia.
  - pose proof (retry_loop_pause_bound D A func (S n) delay n Hd Hq 0 w ltac:(lia)) as H.
    cbv zeta in H. change (2 ^ Z.of_nat 0)%Z with 1%Z in H.
    replace (S n - 1) with n in * by lia. exact H.
Qed.

Lemma retry_total_pause_bounded_witness :
  let func := upload (D := Sim.drive) Demo.app "x.cook" "X" in
  let w := Sim.initial Demo.deployed
             [Some (APIResponse 503); Some (OtherException "ConnectionError");
              Some (APIResponse 500)] in
  let t := snd (retry_api_call func 3 2 w) in
  (0 <= total_pause t <= 6)%Z /\ length (sleeps t) <= 2.
Proof.
  intros func w.
  apply (retry_total_pause_bounded Sim.drive unit func 3 2 w).
  - lia.
  - intros w0. apply remote_quiet. reflexivity.
Defined.

(** *** Splitting and trimming *)

Section String_facts.

Lemma append_assoc (a b c : string) : (a ++ b) ++ c = a ++ (b ++ c).
Proof. induction a as [ | x a IH]; simpl; [reflexivity | now rewrite IH]. Qed.

Lemma append_nil_r (a : string) : a ++ "" = a.
Proof. induction a as [ | x a IH]; simpl; [reflexivity | now rewrite IH]. Qed.

Lemma prefix_append (p rest : string) : String.prefix p (p ++ rest) = true.
Proof.
  induction p as [ | x p IH]; simpl; [now destruct rest | ].
  destruct (ascii_dec x x) as [_ | N]; [exact IH | now elim N].
Qed.

Lemma prefix_inv (p s : string) :
  String.prefix p s = true -> exists rest, s = p ++ rest.
Proof.
  revert s. induction p as [ | x p IH]; intros s H.
  - exists s. reflexivity.
  - destruct s as [ | y s]; simpl in H; [discriminate | ].
    destruct (ascii_dec x y) as [-> | _]; [ | discriminate].
    destruct (IH s H) as [rest ->]. now exists rest.
Qed.

Lemma lacks_cons c x s :
  lacks c (String x s) = negb (Ascii.eqb x c) && lacks c s.
Proof. reflexivity. Qed.

Lemma lacks_app c s1 s2 :
  lacks c (s1 ++ s2) = lacks c s1 && lacks c s2.
Proof.
  induction s1 as [ | x s1 IH]; [reflexivity | ].
  simpl String.append. rewrite !lacks_cons, IH. now rewrite andb_assoc.
Qed.

Lemma split_not_nil c s : PyStr.split c s <> [].
Proof.
  destruct s as [ | x s]; simpl; [discriminate | ].
  destruct (Ascii.eqb x c); [discriminate | ].
  destruct (PyStr.split c s); discriminate.
Qed.

Lemma split_lacks c s : lacks c s = true -> PyStr.split c s = [s].
Proof.
  induction s as [ | x s IH]; [reflexivity | ].
  rewrite lacks_cons. intros H. apply andb_prop in H. destruct H as [Hx Hs].
  apply negb_true_iff in Hx. simpl. rewrite Hx, (IH Hs). reflexivity.
Qed.

Lemma split_app_sep c s rest :
  lacks c s = true ->
  PyStr.split c (s ++ String c rest) = s :: PyStr.split c rest.
Proof.
  induction s as [ | x s IH]; intros H.
  - simpl. now rewrite Ascii.eqb_refl.
  - rewrite lacks_cons in H. apply andb_prop in H. destruct H as [Hx Hs].
    apply negb_true_iff in Hx. simpl. rewrite Hx, (IH Hs). reflexivity.
Qed.

(** Splitting what was joined gives the parts back. *)
Lemma split_concat c parts :
  parts <> [] ->
  forallb (lacks c) parts = true ->
  PyStr.split c (String.concat (String c EmptyString) parts) = parts.
Proof.
  induction parts as [ | p parts IH]; intros Hne H; [now elim Hne | ].
  simpl in H. apply andb_prop in H. destruct H as [Hp Hps].
  destruct parts as [ | q parts].
  - simpl. now apply split_lacks.
  - change (String.concat (String c EmptyString) (p :: q :: parts))
      with (p ++ String c (String.concat (String c EmptyString) (q :: parts))).
    rewrite (split_app_sep c p _ Hp), IH; [reflexivity | discriminate | exact Hps].
Qed.

Lemma rstrip_app_visible a b :
  ends_visibly b = true -> PyStr.rstrip (a ++ b) = a ++ b.
Proof.
  unfold ends_visibly. intros H. apply andb_prop in H. destruct H as [Hne Hb].
  apply String.eqb_eq in Hb.
  induction a as [ | x a IH]; [exact Hb | ].
  simpl. rewrite IH. destruct (a ++ b) eqn:E; [ | reflexivity].
  destruct a; [simpl in E; subst b; discriminate | discriminate].
Qed.

Lemma rstrip_trailing_space a c :
  PyStr.is_space c = true ->
  PyStr.rstrip (a ++ String c EmptyString) = PyStr.rstrip a.
Proof.
  intros Hc. induction a as [ | x a IH]; simpl.
  - now rewrite Hc.
  - now rewrite IH.
Qed.

Lemma concat_ends_visibly sep lines :
  lines <> [] ->
  forallb ends_visibly lines = true ->
  ends_visibly (String.concat sep lines) = true.
Proof.
  induction lines as [ | l lines IH]; intros Hne H; [now elim Hne | ].
  simpl in H. apply andb_prop in H. destruct H as [Hl Hls].
  destruct lines as [ | m lines]; [exact Hl | ].
  change (String.concat sep (l :: m :: lines))
    with (l ++ sep ++ String.concat sep (m :: lines)).
  specialize (IH ltac:(discriminate) Hls).
  unfold ends_visibly.
  rewrite <- append_assoc, (rstrip_app_visible _ _ IH), String.eqb_refl, andb_true_r.
  unfold ends_visibly in Hl. apply andb_prop in Hl. destruct Hl as [Hl _].
  destruct l; [discriminate | reflexivity].
Qed.

End String_facts.

(** *** Reading the git diff *)

Section Diff_facts.

Variable D : Drive.
Variable L : Local.

Lemma visible_not c x : PyStr.is_space x = true -> PyStr.is_space c = false -> Ascii.eqb c x = false.
Proof.
  intros Hx Hc. destruct (Ascii.eqb c x) eqn:E; [ | reflexivity].
  apply Ascii.eqb_eq in E. subst c. congruence.
Qed.

Lemma parse_line_of_columns s c0 c1 more :
  forallb (lacks PyStr.TAB) (String s c0 :: c1 :: more) = true ->
  parse_line
    (String.concat (String PyStr.TAB EmptyString) (String s c0 :: c1 :: more))
  = Ret (Some (s, c1)).
Proof.
  intros H. unfold parse_line.
  rewrite (split_concat PyStr.TAB (String s c0 :: c1 :: more) ltac:(discriminate) H).
  reflexivity.
Qed.

Lemma parse_line_without_tab line :
  lacks PyStr.TAB line = true -> parse_line line = Ret None.
Proof.
  intros H. unfold parse_line. now rewrite (split_lacks _ _ H).
Qed.





Lemma parse_lines_skip l1 line l2 :
  lacks PyStr.TAB line = true ->
  parse_lines (l1 ++ line :: l2) = parse_lines (l1 ++ l2).
Proof.
  intros H. induction l1 as [ | l l1 IH]; simpl.
  - rewrite (parse_line_without_tab _ H). now destruct (parse_lines l2).
  - now rewrite IH.
Qed.

Lemma plain_change_inv c :
  plain_change c = true ->
  PyStr.is_space (fst c) = false /\ lacks PyStr.TAB (snd c) = true
  /\ lacks PyStr.LF (snd c) = true /\ ends_visibly (snd c) = true.
Proof.
  unfold plain_change. intros H.
  repeat (apply andb_prop in H; destruct H as [H ?]).
  apply negb_true_iff in H. auto.
Qed.

Lemma parse_line_format c :
  plain_change c = true -> parse_line (format_change c) = Ret (Some c).
Proof.
  intros H. destruct (plain_change_inv c H) as (Hs & Ht & _ & _).
  destruct c as [s p]. simpl in *.
  change (format_change (s, p))
    with (String.concat (String PyStr.TAB EmptyString) [String s EmptyString; p]).
  apply parse_line_of_columns. cbn [forallb].
  rewrite lacks_cons, Ht, (visible_not s PyStr.TAB eq_refl Hs). reflexivity.
Qed.

Lemma parse_lines_format changes :
  forallb plain_change changes = true ->
  parse_lines (map format_change changes) = Ret changes.
Proof.
  induction changes as [ | c changes IH]; intros H; [reflexivity | ].
  simpl in H. apply andb_prop in H. destruct H as [Hc Hcs].
  simpl. now rewrite (parse_line_format c Hc), (IH Hcs).
Qed.

Lemma format_change_line c :
  plain_change c = true ->
  lacks PyStr.LF (format_change c) = true /\ ends_visibly (format_change c) = true.
Proof.
  intros H. destruct (plain_change_inv c H) as (Hs & _ & Hl & Hv).
  destruct c as [s p]. simpl in *. split.
  - unfold format_change. simpl fst. simpl snd. rewrite !lacks_cons, Hl.
    now rewrite (visible_not s PyStr.LF eq_refl Hs).
  - change (format_change (s, p)) with (String s (String PyStr.TAB EmptyString) ++ p).
    unfold ends_visibly. now rewrite (rstrip_app_visible _ _ Hv), String.eqb_refl.
Qed.

Lemma diff_output_strip changes :
  changes <> [] ->
  forallb plain_change changes = true ->
  let body := String.concat (String PyStr.LF EmptyString) (map format_change changes) in
  PyStr.strip (body ++ String PyStr.LF EmptyString) = body
  /\ PyStr.truthy body = true
  /\ PyStr.split PyStr.LF body = map format_change changes.
Proof.
  intros Hne H body.
  assert (Hlines : forallb (lacks PyStr.LF) (map format_change changes) = true
                   /\ forallb ends_visibly (map format_change changes) = true).
  { clear Hne. induction changes as [ | c changes IH]; [now split | ].
    simpl in H. apply andb_prop in H. destruct H as [Hc Hcs].
    destruct (format_change_line c Hc) as [H1 H2]. destruct (IH Hcs) as [H3 H4].
    simpl. now rewrite H1, H2, H3, H4. }
  destruct Hlines as [Hlf Hvis].
  assert (Hmap : map format_change changes <> []) by (now destruct changes).
  pose proof (concat_ends_visibly (String PyStr.LF EmptyString) _ Hmap Hvis) as Hbody.
  fold body in Hbody.
  assert (Hfirst : exists s rest, body = String s rest /\ PyStr.is_space s = false).
  { destruct changes as [ | [s p] changes]; [now elim Hne | ].
    simpl in H. apply andb_prop in H. destruct H as [Hc _].
    destruct (plain_change_inv _ Hc) as (Hs & _). simpl in Hs.
    subst body. exists s.
    destruct changes; cbn [map String.concat format_change fst snd String.append];
      eexists; (split; [reflexivity | exact Hs]). }
  destruct Hfirst as (s & rest & Eb & Hs).
  repeat split.
  - unfold PyStr.strip. rewrite Eb. simpl PyStr.lstrip. rewrite Hs.
    change (String s (rest ++ String PyStr.LF EmptyString))
      with (String s rest ++ String PyStr.LF EmptyString).
    rewrite (rstrip_trailing_space _ PyStr.LF eq_refl), <- Eb.
    unfold ends_visibly in Hbody. apply andb_prop in Hbody.
    now apply String.eqb_eq.
  - now rewrite Eb.
  - apply split_concat; assumption.
Qed.

End Diff_facts.

(** X4.  Reading back what git prints: for a non-empty list of changes with
    one path each (status not white space, path without tab or newline and
    ending visibly), the output made of one [status TAB path] line per
    change, newline-terminated, is parsed into exactly that list, in
    order. *)
Theorem git_changes_round_trip
    (D : Drive) (L : Local) (last_hash current_hash : string) (w : world D)
    (changes : list (ascii * string)) :
  changes <> [] ->
  forallb plain_change changes = true ->
  git_diff_name_status L last_hash current_hash =
    Ret (String.concat (String PyStr.LF EmptyString) (map format_change changes)
         ++ String PyStr.LF EmptyString) ->
  get_git_changes (D := D) L last_hash current_hash w = (Ret changes, w, []).
Proof.
  intros Hne Hplain Hgit.
  destruct (diff_output_strip changes Hne Hplain) as (Hstrip & Htruthy & Hsplit).
  unfold get_git_changes, bind, lift. rewrite Hgit.
  cbv beta iota zeta. rewrite Hstrip, Htruthy. cbn [negb].
  rewrite Hsplit, (parse_lines_format changes Hplain). reflexivity.
Qed.

Lemma git_changes_round_trip_witness :
  let changes := [("M"%char, "soup/x.cook"); ("D"%char, "bread/old loaf.cook");
                  ("A"%char, "soup/new.cook")] in
  let diff := String.concat (String PyStr.LF EmptyString) (map format_change changes)
              ++ String PyStr.LF EmptyString in
  get_git_changes (D := Sim.drive) (Demo.local diff) "aaa" "bbb"
    (Sim.initial Demo.deployed []) =
  (Ret changes, Sim.initial Demo.deployed [], []).
Proof.
  intros changes diff.
  apply (git_changes_round_trip Sim.drive (Demo.local diff) "aaa" "bbb"
           (Sim.initial Demo.deployed []) changes).
  - discriminate.
  - reflexivity.
  - reflexivity.
Defined.

(** X5.  Of a line with two or more tab-separated columns only the first
    character of the first column and the whole second column are kept: a
    similarity score after the status letter ([R100], [C75]) and every
    further column (the new path of a rename or copy) are dropped. *)
Theorem diff_line_keeps_first_path
    (s : ascii) (score path : string) (more : list string) :
  forallb (lacks PyStr.TAB) (String s score :: path :: more) = true ->
  parse_line
    (String.concat (String PyStr.TAB EmptyString) (String s score :: path :: more))
  = Ret (Some (s, path)).
Proof. apply parse_line_of_columns. Qed.

Lemma diff_line_keeps_first_path_witness :
  parse_line ("C75" ++ Demo.tab ++ "soup/base.cook" ++ Demo.tab ++ "soup/copy.cook")
  = Ret (Some ("C"%char, "soup/base.cook")).
Proof.
  exact (diff_line_keeps_first_path "C"%char "75" "soup/base.cook" ["soup/copy.cook"]
           eq_refl).
Defined.



(** X7.  Output that is blank after trimming gives no change, and a line
    without any tab (a single column) is passed over: the result is that of
    the other lines. *)
Theorem diff_lines_without_tab_are_ignored
    (D : Drive) (L : Local) (last_hash current_hash : string) (w : world D) :
  (forall raw,
      git_diff_name_status L last_hash current_hash = Ret raw ->
      PyStr.strip raw = EmptyString ->
      get_git_changes (D := D) L last_hash current_hash w = (Ret [], w, []))
  /\ (forall before line after,
      lacks PyStr.TAB line = true ->
      parse_lines (before ++ line :: after) = parse_lines (before ++ after)).
Proof.
  split.
  - intros raw H Hs. unfold get_git_changes, bind, lift. rewrite H.
    cbv beta iota zeta. now rewrite Hs.
  - intros. now apply parse_lines_skip.
Qed.

Lemma diff_lines_without_tab_are_ignored_witness :
  get_git_changes (D := Sim.drive) (Demo.local (Demo.lf ++ "  " ++ Demo.lf)) "aaa" "bbb"
    (Sim.initial Demo.deployed []) = (Ret [], Sim.initial Demo.deployed [], [])
  /\ parse_lines ["M" ++ Demo.tab ++ "soup/x.cook"; "warning: refname is ambiguous";
                  "D" ++ Demo.tab ++ "soup/y.cook"]
     = parse_lines ["M" ++ Demo.tab ++ "soup/x.cook"; "D" ++ Demo.tab ++ "soup/y.cook"].
Proof.
  destruct (diff_lines_without_tab_are_ignored Sim.drive
              (Demo.local (Demo.lf ++ "  " ++ Demo.lf)) "aaa" "bbb"
              (Sim.initial Demo.deployed [])) as (H1 & H2).
  split.
  - exact (H1 _ eq_refl eq_refl).
  - exact (H2 ["M" ++ Demo.tab ++ "soup/x.cook"] "warning: refname is ambiguous"
              ["D" ++ Demo.tab ++ "soup/y.cook"] eq_refl).
Defined.

(** *** The root folder and single uploads, for any drive *)

(** X8.  [get_or_create_folder] calls [mkdir] exactly on a lookup miss, once
    and outside the retry wrapper, and answers with a second lookup,
    whatever [mkdir] returned: a folder that is found costs one lookup and
    no mutation, any other lookup failure is raised without a [mkdir], and a
    failing [mkdir] is raised after a single attempt. *)
Theorem get_or_create_folder_cases
    (D : Drive) (drive : node D) (folder_name : string) (w : world D) :
  (forall n w1,
      getitem D drive folder_name w = (Ret n, w1) ->
      get_or_create_folder drive folder_name w =
      (Ret n, w1, [EvGetItem drive folder_name]))
  /\ (forall e w1,
      getitem D drive folder_name w = (Raise e, w1) ->
      e <> KeyError ->
      get_or_create_folder drive folder_name w =
      (Raise e, w1, [EvGetItem drive folder_name]))
  /\ (forall w1 e w2,
      getitem D drive folder_name w = (Raise KeyError, w1) ->
      node_mkdir D drive folder_name w1 = (Raise e, w2) ->
      get_or_create_folder drive folder_name w =
      (Raise e, w2,
       [EvGetItem drive folder_name; EvPrint (MsgRootNotFoundCreating folder_name);
        EvMkdir drive folder_name]))
  /\ (forall w1 answer w2 r w3,
      getitem D drive folder_name w = (Raise KeyError, w1) ->
      node_mkdir D drive folder_name w1 = (Ret answer, w2) ->
      getitem D drive folder_name w2 = (r, w3) ->
      get_or_create_folder drive folder_name w =
      (r, w3,
       [EvGetItem drive folder_name; EvPrint (MsgRootNotFoundCreating folder_name);
        EvMkdir drive folder_name; EvGetItem drive folder_name])).
Proof.
  unfold get_or_create_folder, try_except, on_KeyError, bind, attempt, item, mkdir,
    remote, print, ret, raise.
  repeat split.
  - intros n w1 H. now rewrite H.
  - intros e w1 H He. rewrite H. destruct e; try reflexivity. now elim He.
  - intros w1 e w2 H Hm. rewrite H. cbv beta iota zeta. now rewrite Hm.
  - intros w1 answer w2 r w3 H Hm Hg. rewrite H. cbv beta iota zeta.
    rewrite Hm. cbv beta iota zeta. now rewrite Hg.
Qed.

Lemma get_or_create_folder_cases_witness :
  get_or_create_folder (D := Sim.drive) [] "CooklangApp"
    (Sim.initial [] [None; Some (APIResponse 503)]) =
  (Raise (APIResponse 503), Sim.initial [] [],
   [Demo.GetItem [] "CooklangApp"; Demo.Print (MsgRootNotFoundCreating "CooklangApp");
    @EvMkdir Sim.drive [] "CooklangApp"]).
Proof.
  destruct (get_or_create_folder_cases Sim.drive [] "CooklangApp"
              (Sim.initial [] [None; Some (APIResponse 503)])) as (_ & _ & H & _).
  exact (H (Sim.initial [] [Some (APIResponse 503)]) (APIResponse 503)
           (Sim.initial [] []) eq_refl eq_refl).
Defined.

Section Upload_facts.

Variable D : Drive.
Variable L : Local.

(** The three ways the overwrite step of [upload_file] can end. *)
Lemma upload_file_unfold (drive_folder : node D) local_path relative_path w :
  upload_file L drive_folder local_path relative_path w =
  (let filename := PyStr.basename local_path in
   let finish w1 t1 :=
     match open_rb L local_path with
     | Ret content =>
         let '(r, w2, t2) := retry_default (upload drive_folder filename content) w1 in
         (match r with Ret _ => Ret tt | Raise e => Raise e end, w2,
          (t1 ++ [EvPrint (MsgUploading relative_path)] ++ t2)%list)
     | Raise e => (Raise e, w1, (t1 ++ [EvPrint (MsgUploading relative_path)])%list)
     end in
   match getitem D drive_folder filename w with
   | (Raise KeyError, w1) => finish w1 [EvGetItem drive_folder filename]
   | (Raise e, w1) => (Raise e, w1, [EvGetItem drive_folder filename])
   | (Ret n, w1) =>
       match node_delete D n w1 with
       | (Ret _, w2) | (Raise KeyError, w2) =>
           finish w2 [EvGetItem drive_folder filename;
                      EvPrint (MsgOverwriting relative_path); EvDelete n]
       | (Raise e, w2) =>
           (Raise e, w2,
            [EvGetItem drive_folder filename;
             EvPrint (MsgOverwriting relative_path); EvDelete n])
       end
   end).
Proof.
  unfold upload_file, try_except, on_KeyError, bind, attempt, item, delete,
    remote, print, ret, raise, lift.
  cbv beta iota zeta.
  destruct (getitem D drive_folder (PyStr.basename local_path) w) as [[n | e] w1].
  - destruct (node_delete D n w1) as [[[] | e] w2]; cbv beta iota zeta.
    + destruct (open_rb L local_path) as [content | e]; [ | reflexivity].
      destruct (retry_default _ w2) as [[[o | e] w3] t3];
        cbn [app]; rewrite ?app_nil_r; reflexivity.
    + destruct e; try reflexivity;
        (destruct (open_rb L local_path) as [content | e]; [ | reflexivity]);
        destruct (retry_default _ w2) as [[[o | e] w3] t3];
        cbn [app]; rewrite ?app_nil_r; reflexivity.
  - destruct e; try reflexivity;
      (destruct (open_rb L local_path) as [content | e]; [ | reflexivity]);
      destruct (retry_default _ w1) as [[[o | e] w3] t3];
      cbn [app]; rewrite ?app_nil_r; reflexivity.
Qed.

End Upload_facts.

(** X9.  [upload_file] issues no upload when the lookup of the old copy
    fails with anything but a miss, or when deleting the old copy fails with
    anything but [KeyError]; and when the local file cannot be opened, the
    exception is raised after the old remote copy has been deleted, so that
    copy is lost and nothing replaces it. *)
Theorem upload_file_failures
    (D : Drive) (L : Local) (drive_folder : node D) (local_path relative_path : string)
    (w : world D) :
  let filename := PyStr.basename local_path in
  (forall e w1,
      getitem D drive_folder filename w = (Raise e, w1) ->
      e <> KeyError ->
      upload_file L drive_folder local_path relative_path w =
      (Raise e, w1, [EvGetItem drive_folder filename]))
  /\ (forall n w1 e w2,
      getitem D drive_folder filename w = (Ret n, w1) ->
      node_delete D n w1 = (Raise e, w2) ->
      e <> KeyError ->
      upload_file L drive_folder local_path relative_path w =
      (Raise e, w2,
       [EvGetItem drive_folder filename; EvPrint (MsgOverwriting relative_path);
        EvDelete n]))
  /\ (forall n w1 w2 e,
      getitem D drive_folder filename w = (Ret n, w1) ->
      node_delete D n w1 = (Ret tt, w2) ->
      open_rb L local_path = Raise e ->
      upload_file L drive_folder local_path relative_path w =
      (Raise e, w2,
       [EvGetItem drive_folder filename; EvPrint (MsgOverwriting relative_path);
        EvDelete n; EvPrint (MsgUploading relative_path)])).
Proof.
  intros filename. subst filename. repeat split.
  - intros e w1 H He. rewrite upload_file_unfold. cbv zeta. rewrite H.
    destruct e; try reflexivity. now elim He.
  - intros n w1 e w2 H Hd He. rewrite upload_file_unfold. cbv zeta. rewrite H, Hd.
    destruct e; try reflexivity. now elim He.
  - intros n w1 w2 e H Hd Ho. rewrite upload_file_unfold. cbv zeta.
    rewrite H, Hd, Ho. reflexivity.
Qed.

Lemma upload_file_failures_witness :
  let L := Demo.local "" in
  let w := Sim.initial [(["CooklangApp"], Sim.RFolder);
                        (["CooklangApp"; "soup"], Sim.RFile "a file named soup")] [] in
  open_rb L "soup" = Raise (OtherException "IsADirectoryError")
  /\ exists w2,
       upload_file (D := Sim.drive) L Demo.app "soup" "soup" w =
       (Raise (OtherException "IsADirectoryError"), w2,
        [Demo.GetItem Demo.app "soup"; Demo.Print (MsgOverwriting "soup");
         Demo.Delete ["CooklangApp"; "soup"]; Demo.Print (MsgUploading "soup")])
       /\ Sim.store w2 ["CooklangApp"; "soup"] = None.
Proof.
  intros L w. split; [reflexivity | ].
  destruct (upload_file_failures Sim.drive L Demo.app "soup" "soup" w) as (_ & _ & H).
  eexists. split.
  - exact (H ["CooklangApp"; "soup"] w _ (OtherException "IsADirectoryError")
             eq_refl eq_refl eq_refl).
  - reflexivity.
Defined.

(** *** The marker and the start of a run, for any drive *)

Section Scratch_facts.

Variable D : Drive.
Variable S : Scratch.
Variable app_folder : node D.
Variable commit_hash : string.

Lemma guarded_marker_write_returns w :
  fst (fst (guarded_marker_write S app_folder commit_hash w)) = Ret tt.
Proof.
  unfold guarded_marker_write. apply try_except_logged.
  intros e. now exists (MsgErrorUpdatingState e).
Qed.

Lemma update_scratch_unfold w :
  update_last_deployed_commit_scratch S app_folder commit_hash w =
  match write_temp S with
  | Raise e => (Raise e, w, [EvPrint (MsgUpdatingState commit_hash)])
  | Ret _ =>
      let '(_, w1, t1) := guarded_marker_write S app_folder commit_hash w in
      (remove_scratch S, w1, (EvPrint (MsgUpdatingState commit_hash) :: t1)%list)
  end.
Proof.
  unfold update_last_deployed_commit_scratch.
  pose proof (guarded_marker_write_returns w) as Hg.
  unfold bind at 1, print. unfold bind at 1, lift at 1.
  destruct (write_temp S) as [[] | e]; [ | reflexivity].
  unfold bind, lift.
  destruct (guarded_marker_write S app_folder commit_hash w) as [[r w1] t1].
  simpl in Hg. subst r.
  destruct (remove_scratch S) as [[] | e]; simpl; now rewrite ?app_nil_r.
Qed.

Lemma try_except_ext A (m1 m2 : M D A) handler w :
  m1 w = m2 w -> try_except m1 handler w = try_except m2 handler w.
Proof. intros H. unfold try_except, bind, attempt. now rewrite H. Qed.

Lemma bind_ext A B (m : M D A) (k1 k2 : A -> M D B) w :
  (forall a w', k1 a w' = k2 a w') -> bind m k1 w = bind m k2 w.
Proof.
  intros H. unfold bind. destruct (m w) as [[[a | e] w1] t1]; [ | reflexivity].
  now rewrite H.
Qed.

Lemma lift_tt_bind B (k : M D B) w :
  bind (lift (Ret tt)) (fun _ => k) w = k w.
Proof. unfold bind, lift. destruct (k w) as [[r w1] t1]. reflexivity. Qed.

(** With scratch files that work, the call is the marker write without
    them. *)
Lemma update_scratch_working w :
  write_temp S = Ret tt -> stage_final S = Ret tt -> remove_scratch S = Ret tt ->
  update_last_deployed_commit_scratch S app_folder commit_hash w =
  update_last_deployed_commit app_folder commit_hash w.
Proof.
  intros Hw Hs Hr. rewrite update_scratch_unfold, Hw, Hr.
  pose proof (guarded_marker_write_returns w) as Hg.
  unfold update_last_deployed_commit. unfold bind at 1. unfold print at 1.
  assert (E : guarded_marker_write S app_folder commit_hash w =
              try_except
                (bind (try_except
                         (bind (item app_folder STATE_FILE_NAME) (fun old => delete old))
                         (on_KeyError (ret tt)))
                   (fun _ =>
                      bind (retry_default (upload app_folder STATE_FILE_NAME commit_hash))
                        (fun _ => ret tt)))
                (fun e => Some (print (MsgErrorUpdatingState e))) w).
  { unfold guarded_marker_write. rewrite Hs.
    apply try_except_ext. apply bind_ext. intros a w'. apply lift_tt_bind. }
  rewrite <- E.
  destruct (guarded_marker_write S app_folder commit_hash w) as [[r w1] t1].
  simpl in Hg. subst r. reflexivity.
Qed.

End Scratch_facts.

(** X10.  [update_last_deployed_commit] raises in two cases only, both of
    its scratch files: when the temporary file cannot be written, before
    the [try], which ends the call before any call to the drive; and when
    a removal of the [finally] block fails.  Nothing else makes it raise:
    a failure of the drive or of the renaming is printed and the call goes
    on to the [finally] block.  When the renaming fails nothing is uploaded,
    although an old marker that was found is deleted by then; when the
    lookup of the old marker fails with anything but a miss, or its delete
    with anything but [KeyError], the new marker is not uploaded either.
    With scratch files that work the call is the marker write without
    them. *)
Theorem update_last_deployed_commit_raises_for_scratch_files_only
    (D : Drive) (S : Scratch) (app_folder : node D) (commit_hash : string) (w : world D) :
  (forall e,
      write_temp S = Raise e ->
      update_last_deployed_commit_scratch S app_folder commit_hash w =
      (Raise e, w, [EvPrint (MsgUpdatingState commit_hash)]))
  /\ (write_temp S = Ret tt ->
      fst (fst (update_last_deployed_commit_scratch S app_folder commit_hash w))
      = remove_scratch S)
  /\ (forall e n filename content,
      stage_final S = Raise e ->
      ~ In (EvUpload n filename content)
           (snd (update_last_deployed_commit_scratch S app_folder commit_hash w)))
  /\ (forall old w1 w2 e,
      write_temp S = Ret tt ->
      getitem D app_folder STATE_FILE_NAME w = (Ret old, w1) ->
      node_delete D old w1 = (Ret tt, w2) ->
      stage_final S = Raise e ->
      update_last_deployed_commit_scratch S app_folder commit_hash w =
      (remove_scratch S, w2,
       [EvPrint (MsgUpdatingState commit_hash);
        EvGetItem app_folder STATE_FILE_NAME; EvDelete old;
        EvPrint (MsgErrorUpdatingState e)]))
  /\ (forall e w1,
      write_temp S = Ret tt ->
      getitem D app_folder STATE_FILE_NAME w = (Raise e, w1) ->
      e <> KeyError ->
      update_last_deployed_commit_scratch S app_folder commit_hash w =
      (remove_scratch S, w1,
       [EvPrint (MsgUpdatingState commit_hash);
        EvGetItem app_folder STATE_FILE_NAME;
        EvPrint (MsgErrorUpdatingState e)]))
  /\ (forall old w1 e w2,
      write_temp S = Ret tt ->
      getitem D app_folder STATE_FILE_NAME w = (Ret old, w1) ->
      node_delete D old w1 = (Raise e, w2) ->
      e <> KeyError ->
      update_last_deployed_commit_scratch S app_folder commit_hash w =
      (remove_scratch S, w2,
       [EvPrint (MsgUpdatingState commit_hash);
        EvGetItem app_folder STATE_FILE_NAME; EvDelete old;
        EvPrint (MsgErrorUpdatingState e)]))
  /\ (write_temp S = Ret tt -> stage_final S = Ret tt -> remove_scratch S = Ret tt ->
      update_last_deployed_commit_scratch S app_folder commit_hash w =
      update_last_deployed_commit app_folder commit_hash w).
Proof.
  repeat split.
  - intros e He. rewrite update_scratch_unfold. now rewrite He.
  - intros Hw. rewrite update_scratch_unfold. rewrite Hw.
    destruct (guarded_marker_write S app_folder commit_hash w) as [[r w1] t1].
    reflexivity.
  - intros e n filename content Hs.
    rewrite update_scratch_unfold.
    destruct (write_temp S) as [[] | e0]; [ | simpl; intros [H | []]; discriminate].
    unfold guarded_marker_write, try_except, on_KeyError, bind, attempt, item, delete,
      remote, lift, print, ret, raise.
    rewrite Hs.
    destruct (getitem D app_folder STATE_FILE_NAME w) as [[old | e1] w1];
      cbv beta iota zeta.
    + destruct (node_delete D old w1) as [[[] | e2] w2]; cbv beta iota zeta.
      * simpl. intros [H | [H | [H | [H | []]]]]; discriminate.
      * destruct e2; simpl; intros H;
          repeat (destruct H as [H | H]; [discriminate | ]); exact H.
    + destruct e1; simpl; intros H;
        repeat (destruct H as [H | H]; [discriminate | ]); exact H.
  - intros old w1 w2 e Hw Hg Hd Hs.
    rewrite update_scratch_unfold. rewrite Hw.
    unfold guarded_marker_write, try_except, on_KeyError, bind, attempt, item, delete,
      remote, lift, print, ret, raise.
    rewrite Hg. cbv beta iota zeta. rewrite Hd. cbv beta iota zeta. rewrite Hs.
    reflexivity.
  - intros e w1 Hw Hg He.
    rewrite update_scratch_unfold. rewrite Hw.
    unfold guarded_marker_write, try_except, on_KeyError, bind, attempt, item, delete,
      remote, lift, print, ret, raise.
    rewrite Hg. destruct e; try reflexivity. now elim He.
  - intros old w1 e w2 Hw Hg Hd He.
    rewrite update_scratch_unfold. rewrite Hw.
    unfold guarded_marker_write, try_except, on_KeyError, bind, attempt, item, delete,
      remote, lift, print, ret, raise.
    rewrite Hg. cbv beta iota zeta. rewrite Hd.
    destruct e; try reflexivity. now elim He.
  - intros Hw Hs Hr. now apply update_scratch_working.
Qed.

(** The temporary directory holds a directory of the marker's name: the
    removal before the renaming fails, and so does the one of the [finally]
    block, which ends the call; the old marker is deleted by then. *)
Lemma update_last_deployed_commit_raises_for_scratch_files_only_witness :
  let S := {| write_temp := Ret tt;
              stage_final := Raise (OtherException "IsADirectoryError");
              remove_scratch := Raise (OtherException "IsADirectoryError") |} in
  let w := Sim.initial Demo.deployed [] in
  let marker := ["CooklangApp"; "last_deployed_commit.txt"] in
  let w2 := Sim.with_store w (Sim.remove_tree marker (Sim.store w)) in
  update_last_deployed_commit_scratch (D := Sim.drive) S Demo.app "bbb" w =
  (Raise (OtherException "IsADirectoryError"), w2,
   [Demo.Print (MsgUpdatingState "bbb");
    Demo.GetItem Demo.app "last_deployed_commit.txt"; Demo.Delete marker;
    Demo.Print (MsgErrorUpdatingState (OtherException "IsADirectoryError"))])
  /\ Sim.store w2 marker = None.
Proof.
  intros S w marker w2.
  destruct (update_last_deployed_commit_raises_for_scratch_files_only
              Sim.drive S Demo.app "bbb" w) as (_ & _ & _ & H & _).
  split.
  - exact (H marker w w2 (OtherException "IsADirectoryError")
             eq_refl eq_refl eq_refl eq_refl).
  - reflexivity.
Defined.

(** X11.  [get_last_deployed_commit] returns normally on every input.  A
    lookup miss gives [None] without any message, and a marker that is found
    and downloaded gives its text with newlines normalised and both ends
    trimmed. *)
Theorem get_last_deployed_commit_never_raises
    (D : Drive) (app_folder : node D) (w : world D) :
  (exists answer, fst (fst (get_last_deployed_commit app_folder w)) = Ret answer)
  /\ (forall w1,
        getitem D app_folder STATE_FILE_NAME w = (Raise KeyError, w1) ->
        get_last_deployed_commit app_folder w =
        (Ret None, w1, [EvGetItem app_folder STATE_FILE_NAME]))
  /\ (forall file_node w1 content w2,
        getitem D app_folder STATE_FILE_NAME w = (Ret file_node, w1) ->
        node_open_content D file_node w1 = (Ret content, w2) ->
        get_last_deployed_commit app_folder w =
        (Ret (Some (PyStr.strip (PyStr.universal_newlines content))), w2,
         [EvGetItem app_folder STATE_FILE_NAME; EvOpen file_node])).
Proof.
  unfold get_last_deployed_commit, try_except, bind, attempt, item, open_content,
    remote, print, ret, raise.
  repeat split.
  - destruct (getitem D app_folder STATE_FILE_NAME w) as [[n | e] w1];
      cbv beta iota zeta.
    + destruct (node_open_content D n w1) as [[c | e] w2]; cbv beta iota zeta.
      * eexists; reflexivity.
      * destruct e; eexists; reflexivity.
    + destruct e; eexists; reflexivity.
  - intros w1 H. now rewrite H.
  - intros n w1 content w2 H Ho. rewrite H. cbv beta iota zeta. now rewrite Ho.
Qed.

Lemma get_last_deployed_commit_never_raises_witness :
  get_last_deployed_commit (D := Sim.drive) Demo.app
    (Sim.initial [(["CooklangApp"], Sim.RFolder)] []) =
  (Ret None, Sim.initial [(["CooklangApp"], Sim.RFolder)] [],
   [Demo.GetItem Demo.app "last_deployed_commit.txt"]).
Proof.
  destruct (get_last_deployed_commit_never_raises Sim.drive Demo.app
              (Sim.initial [(["CooklangApp"], Sim.RFolder)] [])) as (_ & H & _).
  exact (H _ eq_refl).
Defined.

Section Start_facts.

Variable D : Drive.
Variable L : Local.

Lemma main_unfold (drive : node D) w :
  main L drive w =
  (let start := [EvPrint MsgAuthenticated; EvPrint MsgAccessingDrive] in
   match get_or_create_folder drive ICLOUD_FOLDER_NAME w with
   | (Raise e, w1, t1) => (Raise e, w1, (start ++ t1)%list)
   | (Ret app_folder, w1, t1) =>
       match git_rev_parse_HEAD L with
       | Raise e =>
           (Raise e, w1,
            (start ++ t1 ++ [EvPrint (MsgDeployingTo ICLOUD_FOLDER_NAME)])%list)
       | Ret out =>
           let current_hash := PyStr.strip out in
           let '(last, w2, t2) := get_last_deployed_commit app_folder w1 in
           let before :=
             (start ++ t1
              ++ [EvPrint (MsgDeployingTo ICLOUD_FOLDER_NAME);
                  EvPrint (MsgCurrentCommit current_hash)] ++ t2)%list in
           match last with
           | Raise e => (Raise e, w2, before)
           | Ret last_hash =>
               let '(r, w3, t3) :=
                 match last_hash with
                 | Some h =>
                     if PyStr.truthy h
                     then incremental_sync L app_folder h current_hash w2
                     else full_sync L app_folder current_hash w2
                 | None => full_sync L app_folder current_hash w2
                 end in
               (r, w3,
                (before ++ t3
                 ++ match r with
                    | Ret _ => [EvPrint MsgDeploymentComplete]
                    | Raise _ => []
                    end)%list)
           end
       end
   end).
Proof.
  unfold main, get_current_commit_hash, bind, print, lift, ret.
  cbv beta iota zeta.
  destruct (get_or_create_folder drive ICLOUD_FOLDER_NAME w) as [[[folder | e] w1] t1];
    [ | reflexivity].
  destruct (git_rev_parse_HEAD L) as [out | e]; cbv beta iota zeta;
    [ | now rewrite app_nil_r].
  destruct (get_last_deployed_commit folder w1) as [[[last | e] w2] t2];
    cbv beta iota zeta; [ | cbn [app]; now rewrite ?app_nil_r].
  destruct last as [h | ]; [destruct (PyStr.truthy h) | ];
    match goal with
    | |- context [incremental_sync L folder ?h ?c w2] =>
        destruct (incremental_sync L folder h c w2) as [[[[] | e] w3] t3]
    | |- context [full_sync L folder ?c w2] =>
        destruct (full_sync L folder c w2) as [[[[] | e] w3] t3]
    end; cbn [app]; rewrite <- ?app_assoc, ?app_nil_r; reflexivity.
Qed.

End Start_facts.

(** X12.  A marker that is found but blank (empty, or white space only) is
    not a previous deployment: [main] takes the full walk of the working
    tree and the marker write, as when no marker exists. *)
Theorem blank_marker_starts_full_sync
    (D : Drive) (L : Local) (drive app_folder file_node : node D)
    (w w1 w2 w3 : world D) (t1 : list (event D)) (out content : string) :
  get_or_create_folder drive ICLOUD_FOLDER_NAME w = (Ret app_folder, w1, t1) ->
  git_rev_parse_HEAD L = Ret out ->
  getitem D app_folder STATE_FILE_NAME w1 = (Ret file_node, w2) ->
  node_open_content D file_node w2 = (Ret content, w3) ->
  PyStr.strip (PyStr.universal_newlines content) = EmptyString ->
  main L drive w =
  (let '(r, w4, t4) := full_sync L app_folder (PyStr.strip out) w3 in
   (r, w4,
    ([EvPrint MsgAuthenticated; EvPrint MsgAccessingDrive] ++ t1
     ++ [EvPrint (MsgDeployingTo ICLOUD_FOLDER_NAME);
         EvPrint (MsgCurrentCommit (PyStr.strip out));
         EvGetItem app_folder STATE_FILE_NAME; EvOpen file_node]
     ++ t4
     ++ match r with
        | Ret _ => [EvPrint MsgDeploymentComplete]
        | Raise _ => []
        end)%list)).
Proof.
  intros H1 H2 Hg Ho Hblank.
  rewrite main_unfold. cbv zeta. rewrite H1, H2.
  assert (E : get_last_deployed_commit app_folder w1 =
              (Ret (Some EmptyString), w3,
               [EvGetItem app_folder STATE_FILE_NAME; EvOpen file_node])).
  { unfold get_last_deployed_commit, try_except, bind, attempt, item, open_content,
      remote, print, ret, raise.
    rewrite Hg. cbv beta iota zeta. rewrite Ho. cbv beta iota zeta.
    now rewrite Hblank. }
  rewrite E. cbn [PyStr.truthy].
  destruct (full_sync L app_folder (PyStr.strip out) w3) as [[r w4] t4].
  now rewrite <- !app_assoc.
Qed.

Lemma blank_marker_starts_full_sync_witness :
  let L := Demo.local "" in
  let nodes := [(["CooklangApp"], Sim.RFolder);
                (["CooklangApp"; "last_deployed_commit.txt"], Sim.RFile (" " ++ Demo.lf))] in
  main (D := Sim.drive) L [] (Sim.initial nodes []) =
  (let '(r, w4, t4) := full_sync L Demo.app "bbb" (Sim.initial nodes []) in
   (r, w4,
    ([Demo.Print MsgAuthenticated; Demo.Print MsgAccessingDrive;
      Demo.GetItem [] "CooklangApp";
      Demo.Print (MsgDeployingTo "CooklangApp"); Demo.Print (MsgCurrentCommit "bbb");
      Demo.GetItem Demo.app "last_deployed_commit.txt";
      Demo.Open ["CooklangApp"; "last_deployed_commit.txt"]]
     ++ t4
     ++ match r with
        | Ret _ => [Demo.Print MsgDeploymentComplete]
        | Raise _ => []
        end)%list)).
Proof.
  intros L nodes.
  exact (blank_marker_starts_full_sync Sim.drive L [] Demo.app
           ["CooklangApp"; "last_deployed_commit.txt"]
           (Sim.initial nodes []) (Sim.initial nodes []) (Sim.initial nodes [])
           (Sim.initial nodes []) [Demo.GetItem [] "CooklangApp"]
           ("bbb" ++ Demo.lf) (" " ++ Demo.lf)
           eq_refl eq_refl eq_refl eq_refl eq_refl).
Defined.

(** X13.  A run stops at the first failure of its preparation, before any
    file is synchronised and without a marker write: a failure to resolve
    the root folder ends [main] after that call, a failing [git rev-parse]
    ends it before the marker is even read, and a failing [git diff] ends
    the incremental branch without a single call to the drive. *)
Theorem preparation_failure_aborts
    (D : Drive) (L : Local) (drive : node D) (w : world D) :
  (forall e w1 t1,
      get_or_create_folder drive ICLOUD_FOLDER_NAME w = (Raise e, w1, t1) ->
      main L drive w =
      (Raise e, w1, ([EvPrint MsgAuthenticated; EvPrint MsgAccessingDrive] ++ t1)%list))
  /\ (forall app_folder w1 t1 e,
      get_or_create_folder drive ICLOUD_FOLDER_NAME w = (Ret app_folder, w1, t1) ->
      git_rev_parse_HEAD L = Raise e ->
      main L drive w =
      (Raise e, w1,
       ([EvPrint MsgAuthenticated; EvPrint MsgAccessingDrive] ++ t1
        ++ [EvPrint (MsgDeployingTo ICLOUD_FOLDER_NAME)])%list))
  /\ (forall app_folder last_hash current_hash e,
      git_diff_name_status L last_hash current_hash = Raise e ->
      incremental_sync L app_folder last_hash current_hash w =
      (Raise e, w,
       [EvPrint (MsgFoundLastDeployed last_hash); EvPrint MsgCalculatingChanges])).
Proof.
  repeat split.
  - intros e w1 t1 H. rewrite main_unfold. cbv zeta. now rewrite H.
  - intros app_folder w1 t1 e H Hg. rewrite main_unfold. cbv zeta. now rewrite H, Hg.
  - intros app_folder last_hash current_hash e Hg.
    unfold incremental_sync, get_git_changes, bind, print, lift. now rewrite Hg.
Qed.

Lemma preparation_failure_aborts_witness :
  let L := {| environ_FOLDERS_TO_SYNC := None;
              git_rev_parse_HEAD := Raise (OtherException "CalledProcessError");
              git_diff_name_status := fun _ _ => Ret "";
              cwd := Demo.tree |} in
  main (D := Sim.drive) L [] (Sim.initial Demo.deployed []) =
  (Raise (OtherException "CalledProcessError"), Sim.initial Demo.deployed [],
   [Demo.Print MsgAuthenticated; Demo.Print MsgAccessingDrive;
    Demo.GetItem [] "CooklangApp"; Demo.Print (MsgDeployingTo "CooklangApp")]).
Proof.
  intros L.
  destruct (preparation_failure_aborts Sim.drive L [] (Sim.initial Demo.deployed []))
    as (_ & H & _).
  exact (H Demo.app (Sim.initial Demo.deployed []) [Demo.GetItem [] "CooklangApp"]
           (OtherException "CalledProcessError") eq_refl eq_refl).
Defined.

(** *** The scope of a synchronisation *)

Section Scope_facts.

Variable L : Local.

Lemma under_whitelisted_has_sep path :
  under_whitelisted L path = true -> lacks PyStr.sep path = false.
Proof.
  unfold under_whitelisted. intros H.
  apply existsb_exists in H. destruct H as (f & _ & Hp).
  apply prefix_inv in Hp. destruct Hp as [rest ->].
  rewrite !lacks_app. unfold PyStr.sep_str. rewrite lacks_cons, Ascii.eqb_refl.
  cbn [negb andb]. now rewrite andb_false_r.
Qed.

Lemma under_whitelisted_below here name :
  In here (FOLDERS_TO_SYNC L) \/ under_whitelisted L here = true ->
  under_whitelisted L (here ++ PyStr.sep_str ++ name) = true.
Proof.
  unfold under_whitelisted. intros [Hin | Hu]; apply existsb_exists.
  - exists here. split; [exact Hin | ].
    unfold PyStr.startswith. rewrite <- append_assoc. apply prefix_append.
  - apply existsb_exists in Hu. destruct Hu as (f & Hf & Hp).
    exists f. split; [exact Hf | ].
    apply prefix_inv in Hp. destruct Hp as [rest ->].
    unfold PyStr.startswith. rewrite append_assoc. apply prefix_append.
Qed.

End Scope_facts.

(** X14.  A path without separator is never in scope, even when it is a
    whitelisted name: a change record for a file lying directly in the
    working directory is passed over, and the full walk never uploads such a
    file. *)
Theorem top_level_files_are_never_synchronised
    (D : Drive) (L : Local) (app_folder : node D) (path : string) :
  lacks PyStr.sep path = true ->
  (forall status w, apply_change L app_folder (status, path) w = (Ret tt, w, []))
  /\ (forall content w,
        sync_entry L "." app_folder (File path content) w = (Ret tt, w, [])).
Proof.
  intros H.
  assert (Hu : under_whitelisted L path = false).
  { destruct (under_whitelisted L path) eqn:E; [ | reflexivity].
    apply under_whitelisted_has_sep in E. congruence. }
  split.
  - intros status w. unfold apply_change. now rewrite Hu.
  - intros content w. cbn [sync_entry entry_name].
    destruct (PyStr.startswith path "." || String.eqb path "__pycache__"); [reflexivity | ].
    unfold relpath_of. cbn [String.eqb Ascii.eqb Bool.eqb]. now rewrite Hu.
Qed.

Lemma top_level_files_are_never_synchronised_witness :
  apply_change (D := Sim.drive) (Demo.local "") Demo.app ("M"%char, "soup")
    (Sim.initial Demo.deployed [])
  = (Ret tt, Sim.initial Demo.deployed [], []).
Proof.
  exact (proj1 (top_level_files_are_never_synchronised Sim.drive (Demo.local "")
                  Demo.app "soup" eq_refl) "M"%char (Sim.initial Demo.deployed [])).
Defined.

(** X15.  Below a whitelisted folder everything that is not hidden is in
    scope, at any depth: in a directory that is a whitelisted name or lies
    under one, the full walk uploads every file and enters every
    sub-directory whose name neither begins with a dot nor is
    [__pycache__]. *)
Theorem below_whitelisted_everything_is_synchronised
    (D : Drive) (L : Local) (here name : string) (icloud_folder : node D) :
  here <> "." ->
  In here (FOLDERS_TO_SYNC L) \/ under_whitelisted L here = true ->
  PyStr.startswith name "." || String.eqb name "__pycache__" = false ->
  let rel := here ++ PyStr.sep_str ++ name in
  (forall content w,
      sync_entry L here icloud_folder (File name content) w =
      upload_file L icloud_folder rel rel w)
  /\ (forall children w,
      sync_entry L here icloud_folder (Dir name children) w =
      bind (print (MsgProcessingDirectory name))
        (fun _ =>
           bind (sub_folder_of icloud_folder name)
             (fun sub_folder =>
                bind (print (MsgEnteringDirectory name))
                  (fun _ => sync_directory L rel children sub_folder))) w).
Proof.
  intros Hhere Hin Hvis rel.
  assert (Hrel : relpath_of here name = rel).
  { unfold relpath_of. apply String.eqb_neq in Hhere. now rewrite Hhere. }
  pose proof (under_whitelisted_below L here name Hin) as Hu. fold rel in Hu.
  split.
  - intros content w. cbn [sync_entry entry_name]. rewrite Hvis, Hrel, Hu. reflexivity.
  - intros children w. cbn [sync_entry entry_name]. rewrite Hvis, Hrel, Hu.
    destruct (existsb (String.eqb rel) (FOLDERS_TO_SYNC L)); reflexivity.
Qed.

Lemma below_whitelisted_everything_is_synchronised_witness :
  sync_entry (D := Sim.drive) (Demo.local "") "soup/winter" Demo.app
    (File "leek.cook" "LEEK") (Sim.initial Demo.deployed []) =
  upload_file (Demo.local "") Demo.app "soup/winter/leek.cook" "soup/winter/leek.cook"
    (Sim.initial Demo.deployed []).
Proof.
  assert (H : "soup/winter" <> ".") by discriminate.
  exact (proj1 (below_whitelisted_everything_is_synchronised Sim.drive (Demo.local "")
                  "soup/winter" "leek.cook" Demo.app H (or_intror eq_refl) eq_refl)
           "LEEK" (Sim.initial Demo.deployed [])).
Defined.

(** *** Runs on the in-memory drive without failures *)

Section Sim_runs.

Local Open Scope list_scope.

Lemma path_eqb_is_prefix p q : Sim.path_eqb p q = true -> Sim.is_prefix p q = true.
Proof.
  revert q. induction p as [ | a p IH]; intros [ | b q]; simpl; try discriminate; auto.
  intros H. apply andb_prop in H. destruct H as [Hab Hpq].
  now rewrite Hab, (IH q Hpq).
Qed.

Lemma path_eqb_eq p q : Sim.path_eqb p q = true -> p = q.
Proof.
  revert q. induction p as [ | a p IH]; intros [ | b q]; simpl; try discriminate; auto.
  intros H. apply andb_prop in H. destruct H as [Hab Hpq].
  apply String.eqb_eq in Hab. subst. f_equal. auto.
Qed.

Lemma is_prefix_refl p : Sim.is_prefix p p = true.
Proof. apply path_eqb_is_prefix, path_eqb_refl. Qed.

Lemma is_prefix_app p q : Sim.is_prefix p (p ++ q) = true.
Proof.
  induction p as [ | a p IH]; simpl; [reflexivity | ].
  now rewrite String.eqb_refl, IH.
Qed.

Lemma is_prefix_trans p q r :
  Sim.is_prefix p q = true -> Sim.is_prefix q r = true -> Sim.is_prefix p r = true.
Proof.
  revert q r. induction p as [ | a p IH]; intros [ | b q] [ | c r]; simpl;
    try discriminate; auto.
  intros H1 H2. apply andb_prop in H1. apply andb_prop in H2.
  destruct H1 as [Hab Hpq]. destruct H2 as [Hbc Hqr].
  apply String.eqb_eq in Hab. subst b. now rewrite Hbc, (IH q r Hpq Hqr).
Qed.

(** A proper extension is not a prefix of what it extends. *)
Lemma is_prefix_longer p a q : Sim.is_prefix (p ++ a :: q) p = false.
Proof. induction p as [ | b p IH]; simpl; [reflexivity | ]. now rewrite IH, andb_false_r. Qed.

Lemma path_eqb_longer p a q : Sim.path_eqb (p ++ a :: q) p = false.
Proof. induction p as [ | b p IH]; simpl; [reflexivity | ]. now rewrite IH, andb_false_r. Qed.

Lemma sim_retry_first A (func : M Sim.drive A) w a w1 t1 :
  func w = (Ret a, w1, t1) -> retry_default func w = (Ret (Some a), w1, t1).
Proof. intros H. unfold retry_default, retry_api_call. now apply retry_loop_success. Qed.

(** [descend] on a drive that does not fail: it arrives at the node named by
    the non-empty segments, creating what is missing and keeping every node
    that was there. *)
Lemma sim_descend dirs :
  forall (n : node Sim.drive) (w : Sim.state),
    Sim.faults w = [] ->
    exists w' t,
      descend (D := Sim.drive) n dirs w
        = (Ret (n ++ filter PyStr.truthy dirs), w', t)
      /\ Sim.faults w' = []
      /\ (forall q v, Sim.store w q = Some v -> Sim.store w' q = Some v)
      /\ (forall q, Sim.is_prefix n q = false -> Sim.store w' q = Sim.store w q)
      /\ (filter PyStr.truthy dirs <> [] ->
          Sim.store w' (n ++ filter PyStr.truthy dirs) <> None).
Proof.
  induction dirs as [ | d dirs IH]; intros n w Hf.
  - exists w, []. simpl. rewrite app_nil_r. repeat split; auto; intros H; now elim H.
  - destruct d as [ | c d].
    + cbn [descend PyStr.truthy negb filter]. exact (IH n w Hf).
    + set (name := String c d).
      assert (Hstep : exists w1 t1,
                 Sim.faults w1 = []
                 /\ (forall q v, Sim.store w q = Some v -> Sim.store w1 q = Some v)
                 /\ (forall q, Sim.is_prefix n q = false -> Sim.store w1 q = Sim.store w q)
                 /\ Sim.store w1 (n ++ [name]) <> None
                 /\ forall rest,
                      descend (D := Sim.drive) n (name :: rest) w =
                      (let '(r, w2, t2) := descend (D := Sim.drive) (n ++ [name]) rest w1 in
                       (r, w2, t1 ++ t2))).
      { destruct w as [st fl ma ck]. simpl in Hf. subst fl.
        destruct (st (n ++ [name])) as [v | ] eqn:Hst.
        - exists {| Sim.store := st; Sim.faults := []; Sim.mkdir_answers := ma; Sim.clock := ck |},
                 [Demo.GetItem n name].
          repeat split; auto.
          + simpl. congruence.
          + intros rest. subst name.
            cbn [descend PyStr.truthy negb].
            unfold try_except, on_KeyError, bind, attempt, item, remote, ret.
            simpl. unfold Sim.call, Sim.next_fault. simpl. rewrite Hst.
            match goal with
              | |- context [@descend Sim.drive ?a rest ?b] =>
                  destruct (@descend Sim.drive a rest b) as [[r w2] t2]
              end.
            reflexivity.
        - exists {| Sim.store := Sim.put (n ++ [name]) Sim.RFolder st; Sim.faults := [];
                    Sim.mkdir_answers := ma; Sim.clock := ck |}.
          exists (if ma
                  then [Demo.GetItem n name; Demo.Print (MsgCreatingFolder name);
                        @EvMkdir Sim.drive n name]
                  else [Demo.GetItem n name; Demo.Print (MsgCreatingFolder name);
                        @EvMkdir Sim.drive n name; Demo.GetItem n name]).
          repeat split; auto.
          + simpl. intros q v Hq. unfold Sim.put.
            destruct (Sim.path_eqb (n ++ [name]) q) eqn:E; [ | exact Hq].
            apply path_eqb_eq in E.
            assert (q = n ++ [name]) by (now symmetry).
            subst q. congruence.
          + simpl. intros q Hq. unfold Sim.put.
            destruct (Sim.path_eqb (n ++ [name]) q) eqn:E; [ | reflexivity].
            apply path_eqb_is_prefix in E.
            rewrite (is_prefix_trans n (n ++ [name]) q (is_prefix_app n [name]) E) in Hq.
            discriminate.
          + simpl. unfold Sim.put. now rewrite path_eqb_refl.
          + intros rest. subst name.
            cbn [descend PyStr.truthy negb].
            unfold try_except, on_KeyError, bind, attempt, item, mkdir, remote, ret,
              print, lift, new_folder_node, retry_default, retry_api_call, dir.
            simpl. unfold Sim.call, Sim.next_fault. simpl. rewrite Hst. simpl.
            unfold Sim.with_store.
            destruct ma; simpl.
            * match goal with
              | |- context [@descend Sim.drive ?a rest ?b] =>
                  destruct (@descend Sim.drive a rest b) as [[r w2] t2]
              end.
              reflexivity.
            * unfold Sim.put at 1. rewrite path_eqb_refl. simpl.
              match goal with
              | |- context [@descend Sim.drive ?a rest ?b] =>
                  destruct (@descend Sim.drive a rest b) as [[r w2] t2]
              end.
              reflexivity. }
      destruct Hstep as (w1 & t1 & Hf1 & Hkeep1 & Hframe1 & Hnew & Hrun).
      destruct (IH (n ++ [name]) w1 Hf1) as (w' & t & E & Hf' & Hkeep & Hframe & Hlast).
      exists w', (t1 ++ t).
      assert (Hname : PyStr.truthy name = true) by reflexivity.
      cbn [filter]. rewrite Hname.
      rewrite (Hrun dirs), E. rewrite <- app_assoc. cbn [app].
      repeat split; auto.
      * intros q Hq. rewrite Hframe, Hframe1; auto.
        destruct (Sim.is_prefix (n ++ [name]) q) eqn:Ep; [ | reflexivity].
        rewrite (is_prefix_trans n (n ++ [name]) q (is_prefix_app n [name]) Ep) in Hq.
        discriminate.
      * intros _. destruct (filter PyStr.truthy dirs) as [ | x l] eqn:Efl.
        -- rewrite app_nil_r in Hlast, E.
           destruct (Sim.store w1 (n ++ [name])) as [v | ] eqn:Ev; [ | now elim Hnew].
           rewrite (Hkeep _ _ Ev). discriminate.
        -- replace (n ++ name :: x :: l) with ((n ++ [name]) ++ x :: l)
             by (now rewrite <- app_assoc).
           apply Hlast. discriminate.
Qed.

Lemma sim_upload_file L (folder : node Sim.drive) local_path relative_path w content :
  Sim.faults w = [] ->
  open_rb L local_path = Ret content ->
  let filename := PyStr.basename local_path in
  exists w' t,
    upload_file (D := Sim.drive) L folder local_path relative_path w = (Ret tt, w', t)
    /\ Sim.faults w' = []
    /\ Sim.store w' (folder ++ [filename]) = Some (Sim.RFile content)
    /\ (forall q, Sim.is_prefix (folder ++ [filename]) q = false ->
                  Sim.store w' q = Sim.store w q)
    /\ (filter is_mutation t = [Demo.Upload folder filename content]
        \/ filter is_mutation t =
           [Demo.Delete (folder ++ [filename]); Demo.Upload folder filename content]).
Proof.
  intros Hf Ho filename. subst filename.
  destruct w as [st fl ma ck]. simpl in Hf. subst fl.
  rewrite upload_file_unfold. cbv zeta. rewrite Ho.
  unfold retry_default, retry_api_call, upload, remote, bind, attempt, ret.
  simpl. unfold Sim.call, Sim.next_fault. simpl.
  destruct (st (folder ++ [PyStr.basename local_path])) as [v | ] eqn:Hst; simpl;
    do 2 eexists; (split; [reflexivity | ]); simpl; unfold Sim.put, Sim.remove_tree;
    rewrite path_eqb_refl; repeat split; auto;
    intros q Hq;
    (destruct (Sim.path_eqb _ q) eqn:E;
     [apply path_eqb_is_prefix in E; congruence | ]);
    rewrite ?Hq; reflexivity.
Qed.

Lemma open_rb_exists L path content :
  open_rb L path = Ret content -> os_path_exists L path = true.
Proof.
  unfold open_rb, os_path_exists.
  destruct (resolve_local L path) as [[] | ]; try discriminate; reflexivity.
Qed.

(** [walk] on a drive that does not fail either arrives at the node named by
    the segments or stops at a missing one; it changes nothing. *)
Lemma sim_walk parts :
  forall (n : node Sim.drive) (w : Sim.state),
    Sim.faults w = [] ->
    exists t,
      filter is_mutation t = []
      /\ (walk (D := Sim.drive) n parts w = (Ret (n ++ parts), w, t)
          \/ walk (D := Sim.drive) n parts w = (Raise KeyError, w, t)).
Proof.
  induction parts as [ | p parts IH]; intros n w Hf.
  - exists []. split; [reflexivity | left]. simpl. now rewrite app_nil_r.
  - cbn [walk]. unfold bind, item, remote. simpl getitem.
    unfold Sim.call, Sim.next_fault. rewrite Hf.
    destruct (Sim.store w (n ++ [p])) as [v | ].
    + destruct (IH (n ++ [p]) w Hf) as (t & Hm & [E | E]); rewrite E;
        exists (Demo.GetItem n p :: t); (split; [exact Hm | ]).
      * left. now rewrite <- app_assoc.
      * right. reflexivity.
    + exists [Demo.GetItem n p]. split; [reflexivity | right; reflexivity].
Qed.

Lemma sim_walk_absent parts :
  forall (n : node Sim.drive) (w : Sim.state),
    Sim.faults w = [] ->
    parts <> [] ->
    Sim.store w (n ++ parts) = None ->
    exists t,
      filter is_mutation t = []
      /\ walk (D := Sim.drive) n parts w = (Raise KeyError, w, t).
Proof.
  induction parts as [ | p parts IH]; intros n w Hf Hne Hs; [now elim Hne | ].
  cbn [walk]. unfold bind, item, remote. simpl getitem.
  unfold Sim.call, Sim.next_fault. rewrite Hf.
  destruct (Sim.store w (n ++ [p])) as [v | ] eqn:Ev.
  - destruct parts as [ | p2 parts]; [congruence | ].
    destruct (IH (n ++ [p]) w Hf ltac:(discriminate)) as (t & Hm & E).
    { now rewrite <- app_assoc. }
    rewrite E. exists (Demo.GetItem n p :: t). split; [exact Hm | reflexivity].
  - exists [Demo.GetItem n p]. split; reflexivity.
Qed.

(** [delete_file] on a drive that does not fail: afterwards the path does
    not resolve any more. *)
Lemma sim_delete_file (root : node Sim.drive) path w :
  Sim.faults w = [] ->
  exists w1 t1,
    delete_file (D := Sim.drive) root path w = (Ret tt, w1, t1)
    /\ Sim.faults w1 = []
    /\ (forall q, Sim.is_prefix (root ++ PyStr.split PyStr.sep path) q = false ->
                  Sim.store w1 q = Sim.store w q)
    /\ exists t,
         filter is_mutation t = []
         /\ walk (D := Sim.drive) root (PyStr.split PyStr.sep path) w1
            = (Raise KeyError, w1, t).
Proof.
  intros Hf.
  destruct (sim_walk (PyStr.split PyStr.sep path) root w Hf) as (t & Hm & [E | E]).
  - set (target := root ++ PyStr.split PyStr.sep path) in *.
    exists (Sim.with_store w (Sim.remove_tree target (Sim.store w))).
    exists (t ++ [Demo.Print (MsgDeleting path); Demo.Delete target]).
    split.
    { apply (delete_file_deletes Sim.drive root path w target w t).
      - exact E.
      - simpl node_delete. unfold Sim.call, Sim.next_fault. now rewrite Hf. }
    split; [exact Hf | ].
    split.
    { intros q Hq. simpl. unfold Sim.remove_tree. now rewrite Hq. }
    apply sim_walk_absent.
    + exact Hf.
    + apply split_not_nil.
    + simpl. unfold Sim.remove_tree. fold target. now rewrite is_prefix_refl.
  - exists w, (t ++ [Demo.Print (delete_file_log path KeyError)]).
    split; [now apply (delete_file_walk_raises Sim.drive root path w KeyError w t) | ].
    split; [exact Hf | ].
    split; [reflexivity | ].
    exists t. split; assumption.
Qed.

(** An upsert on a drive that does not fail. *)
Lemma sim_upsert L (app_folder : node Sim.drive) status path w content :
  Sim.faults w = [] ->
  under_whitelisted L path = true ->
  status <> "D"%char ->
  open_rb L path = Ret content ->
  let target :=
    app_folder ++ filter PyStr.truthy (PyStr.split PyStr.sep (PyStr.dirname path))
    ++ [PyStr.basename path] in
  exists w' t,
    apply_change (D := Sim.drive) L app_folder (status, path) w = (Ret tt, w', t)
    /\ Sim.faults w' = []
    /\ Sim.store w' target = Some (Sim.RFile content)
    /\ (forall q v, Sim.store w q = Some v -> Sim.is_prefix target q = false ->
                    Sim.store w' q = Some v).
Proof.
  intros Hf Hu Hs Ho target.
  set (dirs := PyStr.split PyStr.sep (PyStr.dirname path)) in *.
  destruct (sim_descend dirs app_folder w Hf) as (w1 & t1 & Ed & Hf1 & Hkeep & _ & _).
  destruct (sim_upload_file L (app_folder ++ filter PyStr.truthy dirs) path path w1 content
              Hf1 Ho) as (w2 & t2 & Eu & Hf2 & Hst & Hframe & _).
  exists w2, (t1 ++ t2)%list.
  split.
  { unfold apply_change. rewrite Hu. cbn [negb].
    apply Ascii.eqb_neq in Hs. rewrite Hs, (open_rb_exists L path content Ho).
    fold dirs. unfold bind. rewrite Ed, Eu. reflexivity. }
  split; [exact Hf2 | ].
  split; [unfold target; now rewrite app_assoc | ].
  intros q v Hq Hp. rewrite Hframe.
  - exact (Hkeep q v Hq).
  - unfold target in Hp. now rewrite app_assoc in Hp.
Qed.

End Sim_runs.

(** X16.  On a drive that does not fail, [upload_file] leaves the content of
    the local file under the file's base name in the given folder, deletes
    at most the old node of that name before its single upload, and leaves
    alone every node that is not that node or below it. *)
Theorem upload_file_replaces_the_remote_copy
    (L : Local) (folder : node Sim.drive) (local_path relative_path content : string)
    (w : Sim.state) :
  Sim.faults w = [] ->
  open_rb L local_path = Ret content ->
  let filename := PyStr.basename local_path in
  exists w' t,
    upload_file (D := Sim.drive) L folder local_path relative_path w = (Ret tt, w', t)
    /\ Sim.faults w' = []
    /\ Sim.store w' (folder ++ [filename])%list = Some (Sim.RFile content)
    /\ (forall q, Sim.is_prefix (folder ++ [filename])%list q = false ->
                  Sim.store w' q = Sim.store w q)
    /\ (filter is_mutation t = [Demo.Upload folder filename content]
        \/ filter is_mutation t =
           [Demo.Delete (folder ++ [filename])%list; Demo.Upload folder filename content]).
Proof. apply sim_upload_file. Qed.

Lemma upload_file_replaces_the_remote_copy_witness :
  exists w' t,
    upload_file (D := Sim.drive) (Demo.local "") ["CooklangApp"; "soup"]
      "soup/x.cook" "soup/x.cook" (Sim.initial Demo.deployed []) = (Ret tt, w', t)
    /\ Sim.store w' ["CooklangApp"; "soup"; "x.cook"] = Some (Sim.RFile "X")
    /\ Sim.store w' ["CooklangApp"; "last_deployed_commit.txt"] = Some (Sim.RFile "aaa").
Proof.
  destruct (upload_file_replaces_the_remote_copy (Demo.local "") ["CooklangApp"; "soup"]
              "soup/x.cook" "soup/x.cook" "X" (Sim.initial Demo.deployed [])
              eq_refl eq_refl) as (w' & t & E & _ & Hs & Hframe & _).
  exists w', t. split; [exact E | ]. split; [exact Hs | ].
  rewrite Hframe; reflexivity.
Defined.

(** X17.  On a drive that does not fail, applying a change record that is
    not a delete, for a whitelisted path whose local file can be read, ends
    with the file's content on the drive under the path's directory
    segments and base name; the folders on the way are created as needed
    and every other node that was on the drive is still there. *)
Theorem upsert_stores_the_file
    (L : Local) (app_folder : node Sim.drive) (status : ascii) (path content : string)
    (w : Sim.state) :
  Sim.faults w = [] ->
  under_whitelisted L path = true ->
  status <> "D"%char ->
  open_rb L path = Ret content ->
  let target :=
    (app_folder ++ filter PyStr.truthy (PyStr.split PyStr.sep (PyStr.dirname path))
     ++ [PyStr.basename path])%list in
  exists w' t,
    apply_change (D := Sim.drive) L app_folder (status, path) w = (Ret tt, w', t)
    /\ Sim.faults w' = []
    /\ Sim.store w' target = Some (Sim.RFile content)
    /\ (forall q v, Sim.store w q = Some v -> Sim.is_prefix target q = false ->
                    Sim.store w' q = Some v).
Proof. apply sim_upsert. Qed.

Lemma upsert_stores_the_file_witness :
  exists w' t,
    apply_change (D := Sim.drive) (Demo.local "") Demo.app ("A"%char, "soup/new.cook")
      (Sim.initial [(["CooklangApp"], Sim.RFolder)] []) = (Ret tt, w', t)
    /\ Sim.store w' ["CooklangApp"; "soup"; "new.cook"] = Some (Sim.RFile "NEW").
Proof.
  assert (Hs : "A"%char <> "D"%char) by discriminate.
  destruct (upsert_stores_the_file (Demo.local "") Demo.app "A"%char "soup/new.cook" "NEW"
              (Sim.initial [(["CooklangApp"], Sim.RFolder)] [])
              eq_refl eq_refl Hs eq_refl) as (w' & t & E & _ & Hst & _).
  exists w', t. split; [exact E | exact Hst].
Defined.

(** X18.  On a drive that does not fail, [delete_file] is idempotent in
    effect: after one call the path does not resolve any more, so a second
    call stops at a lookup miss, prints that the file was not found, and
    changes nothing; nodes that are not the deleted node or below it are
    left alone by both calls. *)
Theorem delete_file_twice_on_working_drive
    (root : node Sim.drive) (path : string) (w : Sim.state) :
  Sim.faults w = [] ->
  exists w1 t1 t2,
    delete_file (D := Sim.drive) root path w = (Ret tt, w1, t1)
    /\ delete_file (D := Sim.drive) root path w1 =
       (Ret tt, w1, (t2 ++ [Demo.Print (MsgNotFoundSkippingDelete path)])%list)
    /\ filter is_mutation t2 = []
    /\ (forall q, Sim.is_prefix (root ++ PyStr.split PyStr.sep path)%list q = false ->
                  Sim.store w1 q = Sim.store w q).
Proof.
  intros Hf.
  destruct (sim_delete_file root path w Hf) as (w1 & t1 & E1 & Hf1 & Hframe & t2 & Hm & Ew).
  exists w1, t1, t2. repeat split; auto.
  exact (delete_file_walk_raises Sim.drive root path w1 KeyError w1 t2 Ew).
Qed.

Lemma delete_file_twice_on_working_drive_witness :
  exists w1 t1 t2,
    delete_file (D := Sim.drive) Demo.app "soup" (Sim.initial Demo.deployed []) = (Ret tt, w1, t1)
    /\ delete_file (D := Sim.drive) Demo.app "soup" w1 =
       (Ret tt, w1, (t2 ++ [Demo.Print (MsgNotFoundSkippingDelete "soup")])%list)
    /\ Sim.store w1 ["CooklangApp"; "last_deployed_commit.txt"] = Some (Sim.RFile "aaa").
Proof.
  destruct (delete_file_twice_on_working_drive Demo.app "soup" (Sim.initial Demo.deployed [])
              eq_refl) as (w1 & t1 & t2 & E1 & E2 & _ & Hframe).
  exists w1, t1, t2. split; [exact E1 | ]. split; [exact E2 | ].
  rewrite Hframe; reflexivity.
Defined.

(** X19.  Last write wins: on a drive that does not fail, a delete record
    followed by a record of another status for the same whitelisted path,
    whose local file can be read, leaves the file on the drive with the
    local content. *)
Theorem delete_then_add_leaves_the_file
    (L : Local) (app_folder : node Sim.drive) (status : ascii) (path content : string)
    (w : Sim.state) :
  Sim.faults w = [] ->
  under_whitelisted L path = true ->
  status <> "D"%char ->
  open_rb L path = Ret content ->
  exists w' t,
    for_each (apply_change (D := Sim.drive) L app_folder)
      [("D"%char, path); (status, path)] w = (Ret tt, w', t)
    /\ Sim.store w'
         (app_folder ++ filter PyStr.truthy (PyStr.split PyStr.sep (PyStr.dirname path))
          ++ [PyStr.basename path])%list = Some (Sim.RFile content).
Proof.
  intros Hf Hu Hs Ho.
  destruct (sim_delete_file app_folder path w Hf) as (w1 & t1 & E1 & Hf1 & _).
  destruct (sim_upsert L app_folder status path w1 content Hf1 Hu Hs Ho)
    as (w2 & t2 & E2 & _ & Hst & _).
  exists w2, (t1 ++ t2 ++ [])%list. split; [ | exact Hst].
  cbn [for_each]. unfold bind at 1. unfold apply_change at 1.
  rewrite Hu. cbn [negb]. rewrite Ascii.eqb_refl, E1.
  unfold bind at 1. rewrite E2. reflexivity.
Qed.

Lemma delete_then_add_leaves_the_file_witness :
  exists w' t,
    for_each (apply_change (D := Sim.drive) (Demo.local "") Demo.app)
      [("D"%char, "soup/x.cook"); ("A"%char, "soup/x.cook")]
      (Sim.initial Demo.deployed []) = (Ret tt, w', t)
    /\ Sim.store w' ["CooklangApp"; "soup"; "x.cook"] = Some (Sim.RFile "X").
Proof.
  assert (Hs : "A"%char <> "D"%char) by discriminate.
  exact (delete_then_add_leaves_the_file (Demo.local "") Demo.app "A"%char "soup/x.cook" "X"
           (Sim.initial Demo.deployed []) eq_refl eq_refl Hs eq_refl).
Defined.

(** *** Folders on the way *)

Lemma descend_follows_walk (D : Drive) (dirs : list string) :
  forall (n m : node D) (w w' : world D) (t : list (event D)),
    walk n (filter PyStr.truthy dirs) w = (Ret m, w', t) ->
    descend n dirs w = (Ret m, w', t).
Proof.
  induction dirs as [ | d dirs IH]; intros n m w w' t H.
  - exact H.
  - destruct d as [ | c d].
    + cbn [descend PyStr.truthy negb filter] in *. now apply IH.
    + cbn [filter PyStr.truthy walk] in H. cbn [descend PyStr.truthy negb].
      unfold bind in H |- *.
      destruct (item n (String c d) w) as [[[child | e] w1] t1] eqn:Ei; [ | discriminate].
      rewrite (try_except_Ret D _ _ _ _ _ _ _ Ei).
      destruct (walk child (filter PyStr.truthy dirs) w1) as [[r w2] t2] eqn:Ew.
      inversion H; subst. now rewrite (IH _ _ _ _ _ Ew).
Qed.

(** X20.  Folders are created lazily: when every non-empty segment is found
    by lookup, [descend] is the plain walk along those segments, with the
    same result, world and trace, and so without any mutation. *)
Theorem descend_only_looks_up_existing_folders
    (D : Drive) (dirs : list string) (n m : node D) (w w' : world D)
    (t : list (event D)) :
  walk n (filter PyStr.truthy dirs) w = (Ret m, w', t) ->
  descend n dirs w = (Ret m, w', t) /\ filter is_mutation t = [].
Proof.
  intros H. split.
  - now apply descend_follows_walk.
  - exact (walk_only_looks_up D _ _ _ _ _ _ H).
Qed.

Lemma descend_only_looks_up_existing_folders_witness :
  descend (D := Sim.drive) Demo.app ["soup"; ""] (Sim.initial Demo.deployed []) =
  (Ret ["CooklangApp"; "soup"], Sim.initial Demo.deployed [],
   [Demo.GetItem Demo.app "soup"]).
Proof.
  exact (proj1 (descend_only_looks_up_existing_folders Sim.drive ["soup"; ""] Demo.app
                  ["CooklangApp"; "soup"] (Sim.initial Demo.deployed [])
                  (Sim.initial Demo.deployed []) [Demo.GetItem Demo.app "soup"] eq_refl)).
Defined.

(** X21.  On a drive that does not fail, [descend] arrives at the node named
    by the non-empty segments, whether or not the answer of [mkdir] carries
    the new folder; that node exists afterwards when there is at least one
    segment, every node that was on the drive is still there, and nothing
    outside the starting node changes. *)
Theorem descend_creates_missing_folders
    (dirs : list string) (n : node Sim.drive) (w : Sim.state) :
  Sim.faults w = [] ->
  exists w' t,
    descend (D := Sim.drive) n dirs w
      = (Ret (n ++ filter PyStr.truthy dirs)%list, w', t)
    /\ Sim.faults w' = []
    /\ (forall q v, Sim.store w q = Some v -> Sim.store w' q = Some v)
    /\ (forall q, Sim.is_prefix n q = false -> Sim.store w' q = Sim.store w q)
    /\ (filter PyStr.truthy dirs <> [] ->
        Sim.store w' (n ++ filter PyStr.truthy dirs)%list <> None).
Proof. apply sim_descend. Qed.

Lemma descend_creates_missing_folders_witness :
  exists w' t,
    descend (D := Sim.drive) Demo.app ["bread"; "rye"]
      {| Sim.store := Sim.store_of Demo.deployed; Sim.faults := [];
         Sim.mkdir_answers := false; Sim.clock := 0 |}
      = (Ret ["CooklangApp"; "bread"; "rye"], w', t)
    /\ Sim.store w' ["CooklangApp"; "bread"; "rye"] <> None.
Proof.
  destruct (descend_creates_missing_folders ["bread"; "rye"] Demo.app
              {| Sim.store := Sim.store_of Demo.deployed; Sim.faults := [];
                 Sim.mkdir_answers := false; Sim.clock := 0 |} eq_refl)
    as (w' & t & E & _ & _ & _ & Hlast).
  exists w', t. split; [exact E | ]. apply Hlast. discriminate.
Defined.


Lemma sim_get_or_create (drive : node Sim.drive) (folder_name : string) (w : Sim.state) :
  Sim.faults w = [] ->
  exists w1 t1,
    get_or_create_folder (D := Sim.drive) drive folder_name w
      = (Ret (drive ++ [folder_name])%list, w1, t1)
    /\ Sim.faults w1 = []
    /\ Sim.store w1 (drive ++ [folder_name])%list <> None
    /\ (forall q v, Sim.store w q = Some v -> Sim.store w1 q = Some v)
    /\ (forall q, Sim.path_eqb (drive ++ [folder_name])%list q = false ->
                  Sim.store w1 q = Sim.store w q)
    /\ get_or_create_folder (D := Sim.drive) drive folder_name w1
       = (Ret (drive ++ [folder_name])%list, w1, [Demo.GetItem drive folder_name]).
Proof.
  destruct w as [st fl ma ck]. simpl. intros ->.
  unfold get_or_create_folder, try_except, on_KeyError, bind, attempt, item, mkdir,
    remote, print, ret, raise.
  simpl. unfold Sim.call, Sim.next_fault. simpl.
  destruct (st (drive ++ [folder_name])%list) as [v | ] eqn:Hst; simpl.
  - do 2 eexists. split; [reflexivity | ]. simpl. rewrite Hst.
    repeat split; auto. discriminate.
  - unfold Sim.put at 1. rewrite path_eqb_refl. simpl.
    do 2 eexists. split; [reflexivity | ]. simpl.
    unfold Sim.put. rewrite path_eqb_refl. repeat split; try discriminate.
    + intros q v Hq.
      destruct (Sim.path_eqb (drive ++ [folder_name]) q) eqn:E; [ | exact Hq].
      apply path_eqb_eq in E. subst q. congruence.
    + intros q Hq. now rewrite Hq.
Qed.

(** X22.  On a drive that does not fail, [get_or_create_folder] answers
    with the folder's node, which exists afterwards, and keeps every node
    that was there; a second call is a single lookup that changes
    nothing. *)
Theorem get_or_create_folder_is_idempotent
    (drive : node Sim.drive) (folder_name : string) (w : Sim.state) :
  Sim.faults w = [] ->
  exists w1 t1,
    get_or_create_folder (D := Sim.drive) drive folder_name w
      = (Ret (drive ++ [folder_name])%list, w1, t1)
    /\ Sim.store w1 (drive ++ [folder_name])%list <> None
    /\ (forall q v, Sim.store w q = Some v -> Sim.store w1 q = Some v)
    /\ get_or_create_folder (D := Sim.drive) drive folder_name w1
       = (Ret (drive ++ [folder_name])%list, w1, [Demo.GetItem drive folder_name]).
Proof.
  intros Hf.
  destruct (sim_get_or_create drive folder_name w Hf)
    as (w1 & t1 & E & _ & Hn & Hk & _ & E2).
  exists w1, t1. repeat split; auto.
Qed.

Lemma get_or_create_folder_is_idempotent_witness :
  exists w1 t1,
    get_or_create_folder (D := Sim.drive) [] "CooklangApp" (Sim.initial [] [])
      = (Ret ["CooklangApp"], w1, t1)
    /\ get_or_create_folder (D := Sim.drive) [] "CooklangApp" w1
       = (Ret ["CooklangApp"], w1, [Demo.GetItem [] "CooklangApp"]).
Proof.
  destruct (get_or_create_folder_is_idempotent [] "CooklangApp" (Sim.initial [] []) eq_refl)
    as (w1 & t1 & E1 & _ & _ & E2).
  exists w1, t1. split; [exact E1 | exact E2].
Defined.

(** X23.  The marker write deletes the old marker before it uploads the new
    one: when the upload is refused with an exception that is not retried,
    [update_last_deployed_commit] still returns normally, having deleted the
    old marker and uploaded nothing, so the drive is left without the
    marker. *)
Theorem failed_marker_upload_loses_the_marker
    (D : Drive) (app_folder old : node D) (commit_hash : string)
    (w w1 w2 w3 : world D) (code : Z) :
  getitem D app_folder STATE_FILE_NAME w = (Ret old, w1) ->
  node_delete D old w1 = (Ret tt, w2) ->
  node_upload D app_folder STATE_FILE_NAME commit_hash w2 = (Raise (APIResponse code), w3) ->
  code <> 503%Z -> code <> 500%Z ->
  update_last_deployed_commit app_folder commit_hash w =
  (Ret tt, w3,
   [EvPrint (MsgUpdatingState commit_hash);
    EvGetItem app_folder STATE_FILE_NAME; EvDelete old;
    EvUpload app_folder STATE_FILE_NAME commit_hash;
    EvPrint (MsgErrorUpdatingState (APIResponse code))]).
Proof.
  intros Hg Hd Hu H503 H500.
  apply Z.eqb_neq in H503. apply Z.eqb_neq in H500.
  unfold update_last_deployed_commit, try_except, on_KeyError, bind, attempt, item,
    delete, upload, remote, print, ret, raise, retry_default, retry_api_call.
  rewrite Hg. cbv beta iota zeta. rewrite Hd. cbv beta iota zeta.
  cbn [retry_loop]. unfold bind, attempt, upload, remote, raise.
  rewrite Hu. cbv beta iota zeta. rewrite H503, H500. reflexivity.
Qed.

Lemma failed_marker_upload_loses_the_marker_witness :
  exists w3 t,
    update_last_deployed_commit (D := Sim.drive) Demo.app "bbb"
      (Sim.initial Demo.deployed (Demo.after 2 [APIResponse 403])) = (Ret tt, w3, t)
    /\ Sim.store w3 ["CooklangApp"; "last_deployed_commit.txt"] = None.
Proof.
  assert (H503 : 403%Z <> 503%Z) by discriminate.
  assert (H500 : 403%Z <> 500%Z) by discriminate.
  do 2 eexists. split.
  - exact (failed_marker_upload_loses_the_marker Sim.drive Demo.app
             ["CooklangApp"; "last_deployed_commit.txt"] "bbb"
             (Sim.initial Demo.deployed (Demo.after 2 [APIResponse 403]))
             (Sim.initial Demo.deployed (Demo.after 1 [APIResponse 403]))
             _ _ 403%Z eq_refl eq_refl eq_refl H503 H500).
  - reflexivity.
Defined.

(** *** The whitelist setting *)

Section Strip_facts.

Lemma rstrip_idempotent s : PyStr.rstrip (PyStr.rstrip s) = PyStr.rstrip s.
Proof.
  induction s as [ | c s IH]; [reflexivity | ].
  cbn [PyStr.rstrip]. destruct (PyStr.rstrip s) as [ | x r] eqn:E.
  - destruct (PyStr.is_space c) eqn:Ec; [reflexivity | ].
    cbn [PyStr.rstrip]. now rewrite Ec.
  - cbn [PyStr.rstrip] in IH |- *. now rewrite IH.
Qed.

Lemma lstrip_head s :
  PyStr.lstrip s = EmptyString
  \/ exists c t, PyStr.lstrip s = String c t /\ PyStr.is_space c = false.
Proof.
  induction s as [ | c s IH]; [now left | ].
  cbn [PyStr.lstrip]. destruct (PyStr.is_space c) eqn:Ec; [exact IH | ].
  right. now exists c, s.
Qed.

Lemma strip_idempotent s : PyStr.strip (PyStr.strip s) = PyStr.strip s.
Proof.
  unfold PyStr.strip.
  destruct (lstrip_head s) as [-> | (c & t & -> & Hc)]; [reflexivity | ].
  assert (H : exists t', PyStr.rstrip (String c t) = String c t').
  { cbn [PyStr.rstrip]. destruct (PyStr.rstrip t); rewrite ?Hc; eauto. }
  destruct H as [t' Ht]. rewrite Ht. cbn [PyStr.lstrip]. rewrite Hc, <- Ht.
  apply rstrip_idempotent.
Qed.

End Strip_facts.

(** X24.  The whitelist is the comma-separated value of [FOLDERS_TO_SYNC]
    with every name trimmed: it is never empty, each of its names is free of
    surrounding white space, and a value made of names without commas joined
    by commas gives those names, trimmed, in order. *)
Theorem whitelist_is_the_trimmed_setting (L : Local) :
  FOLDERS_TO_SYNC L <> []
  /\ (forall f, In f (FOLDERS_TO_SYNC L) -> PyStr.strip f = f)
  /\ (forall names,
        names <> [] ->
        forallb (lacks ","%char) names = true ->
        environ_FOLDERS_TO_SYNC L = Some (String.concat "," names) ->
        FOLDERS_TO_SYNC L = map PyStr.strip names).
Proof.
  unfold FOLDERS_TO_SYNC. repeat split.
  - intros H. apply map_eq_nil in H. now apply split_not_nil in H.
  - intros f Hf. apply in_map_iff in Hf. destruct Hf as (x & <- & _).
    apply strip_idempotent.
  - intros names Hne Hl He. rewrite He.
    now rewrite (split_concat ","%char names Hne Hl).
Qed.

Lemma whitelist_is_the_trimmed_setting_witness :
  FOLDERS_TO_SYNC
    {| environ_FOLDERS_TO_SYNC := Some "soup, bread ,desserts";
       git_rev_parse_HEAD := Ret "bbb";
       git_diff_name_status := fun _ _ => Ret "";
       cwd := [] |}
  = ["soup"; "bread"; "desserts"].
Proof.
  destruct (whitelist_is_the_trimmed_setting
              {| environ_FOLDERS_TO_SYNC := Some "soup, bread ,desserts";
                 git_rev_parse_HEAD := Ret "bbb";
                 git_diff_name_status := fun _ _ => Ret "";
                 cwd := [] |}) as (_ & _ & H).
  exact (H ["soup"; " bread "; "desserts"] ltac:(discriminate) eq_refl eq_refl).
Defined.

(** *** Whole runs on the in-memory drive without failures *)

Section Sim_loop.

Variable L : Local.



End Sim_loop.



(** *** The full walk on the in-memory drive without failures *)

Section Sim_walk_tree.

Local Open Scope list_scope.

Variable L : Local.

(** Induction on a tree of entries, with the hypothesis for every child of a
    directory. *)
Lemma entry_tree_ind (P : entry -> Prop) :
  (forall name content, P (File name content)) ->
  (forall name children, Forall P children -> P (Dir name children)) ->
  (forall name, P (Special name)) ->
  forall e, P e.
Proof.
  intros HF HD HS. fix IH 1. intros [name content | name children | name].
  - apply HF.
  - apply HD. induction children as [ | c children IHc]; constructor.
    + apply IH.
    + exact IHc.
  - apply HS.
Qed.

Lemma is_prefix_below p a q :
  Sim.is_prefix p q = false -> Sim.is_prefix (p ++ a) q = false.
Proof.
  intros H. destruct (Sim.is_prefix (p ++ a) q) eqn:E; [ | reflexivity].
  rewrite (is_prefix_trans p (p ++ a) q (is_prefix_app p a) E) in H. discriminate.
Qed.

(** The sub-folder step: the folder is there afterwards, under the expected
    node, whatever the answer of [mkdir] carries. *)
Lemma sim_sub_folder_of (folder : node Sim.drive) dir_name w :
  Sim.faults w = [] ->
  exists w1 t1,
    sub_folder_of (D := Sim.drive) folder dir_name w = (Ret (folder ++ [dir_name]), w1, t1)
    /\ Sim.faults w1 = []
    /\ (forall q, Sim.is_prefix (folder ++ [dir_name]) q = false ->
                  Sim.store w1 q = Sim.store w q)
    /\ (forall q v, Sim.store w q = Some v -> Sim.store w1 q = Some v)
    /\ Sim.store w1 (folder ++ [dir_name]) <> None.
Proof.
  destruct w as [st fl ma ck]. simpl. intros ->.
  unfold sub_folder_of, try_except, on_KeyError, bind, attempt, item, mkdir, remote, ret,
    print, lift, new_folder_node, retry_default, retry_api_call, dir, raise.
  simpl. unfold Sim.call, Sim.next_fault. simpl.
  destruct (st (folder ++ [dir_name])) as [v | ] eqn:Hst; simpl.
  - do 2 eexists. split; [reflexivity | ]. simpl. rewrite Hst.
    repeat split; auto. discriminate.
  - assert (Hkeep : forall q v,
               st q = Some v -> Sim.put (folder ++ [dir_name]) Sim.RFolder st q = Some v).
    { intros q v Hq. unfold Sim.put.
      destruct (Sim.path_eqb (folder ++ [dir_name]) q) eqn:E; [ | exact Hq].
      apply path_eqb_eq in E. subst q. congruence. }
    assert (Hframe : forall q,
               Sim.is_prefix (folder ++ [dir_name]) q = false ->
               Sim.put (folder ++ [dir_name]) Sim.RFolder st q = st q).
    { intros q Hq. unfold Sim.put.
      destruct (Sim.path_eqb (folder ++ [dir_name]) q) eqn:E; [ | reflexivity].
      apply path_eqb_is_prefix in E. congruence. }
    assert (Hnew : Sim.put (folder ++ [dir_name]) Sim.RFolder st (folder ++ [dir_name]) <> None).
    { unfold Sim.put. now rewrite path_eqb_refl. }
    destruct ma; simpl.
    + do 2 eexists. split; [reflexivity | ]. simpl. repeat split; auto.
    + unfold Sim.put at 1. rewrite path_eqb_refl. simpl.
      do 2 eexists. split; [reflexivity | ]. simpl. repeat split; auto.
Qed.

Lemma rsplit_lacks name : lacks PyStr.sep name = true -> PyStr.rsplit_sep name = None.
Proof.
  induction name as [ | c name IH]; [reflexivity | ].
  rewrite lacks_cons. intros H. apply andb_prop in H. destruct H as [Hc Hn].
  apply negb_true_iff in Hc. cbn [PyStr.rsplit_sep]. now rewrite (IH Hn), Hc.
Qed.

Lemma rsplit_app a name :
  lacks PyStr.sep name = true ->
  PyStr.rsplit_sep (a ++ String PyStr.sep name)%string
  = Some ((a ++ PyStr.sep_str)%string, name).
Proof.
  intros H. induction a as [ | c a IH].
  - cbn [String.append PyStr.rsplit_sep]. now rewrite (rsplit_lacks name H), Ascii.eqb_refl.
  - cbn [String.append PyStr.rsplit_sep]. now rewrite IH.
Qed.

Lemma basename_relpath here name :
  lacks PyStr.sep name = true -> PyStr.basename (relpath_of here name) = name.
Proof.
  intros H. unfold relpath_of, PyStr.basename.
  destruct (String.eqb here ".").
  - now rewrite (rsplit_lacks name H).
  - unfold PyStr.sep_str. cbn [String.append]. now rewrite (rsplit_app here name H).
Qed.

Lemma is_prefix_sibling (folder : list string) a b q :
  a <> b ->
  Sim.is_prefix (folder ++ [a]) q = true -> Sim.is_prefix (folder ++ [b]) q = false.
Proof.
  intros Hab. revert q. induction folder as [ | x folder IH]; intros [ | y q]; simpl;
    try discriminate.
  - rewrite !andb_true_r. intros H. apply String.eqb_eq in H. subst y.
    now apply String.eqb_neq, not_eq_sym.
  - intros H. apply andb_prop in H. destruct H as [Hxy Hq].
    rewrite Hxy. cbn [andb]. now apply IH.
Qed.

Lemma forallb_agree A (f g : A -> bool) l :
  Forall (fun x => f x = g x) l -> forallb f l = forallb g l.
Proof. induction 1 as [ | x l Hx _ IH]; simpl; [reflexivity | now rewrite Hx, IH]. Qed.

(** [in_place] for an entry only looks at the nodes at and below the node of
    that entry. *)
Lemma in_place_agrees st st' :
  forall e here folder,
    (forall q, Sim.is_prefix (folder ++ [entry_name e]) q = true -> st' q = st q) ->
    in_place L st' here folder e = in_place L st here folder e.
Proof.
  induction e as [name content | name children IH | name] using entry_tree_ind;
    intros here folder Hq; cbn [in_place entry_name] in *.
  - rewrite (Hq (folder ++ [name]) (is_prefix_refl _)). reflexivity.
  - destruct (PyStr.startswith name "." || String.eqb name "__pycache__"); [reflexivity | ].
    destruct (existsb _ _ || under_whitelisted L _); [ | reflexivity].
    apply forallb_agree.
    apply Forall_impl with (2 := IH). intros c Hc. apply Hc.
    intros q Hp. apply Hq.
    exact (is_prefix_trans _ _ _ (is_prefix_app (folder ++ [name]) [entry_name c]) Hp).
  - reflexivity.
Qed.

Lemma distinct_head x rest :
  distinct (x :: rest) = true ->
  (forall y, In y rest -> x <> y) /\ distinct rest = true.
Proof.
  cbn [distinct]. intros H. apply andb_prop in H. destruct H as [Hx Hr].
  split; [ | exact Hr].
  intros y Hy ->. apply negb_true_iff in Hx.
  assert (existsb (String.eqb y) rest = true).
  { apply existsb_exists. exists y. split; [exact Hy | apply String.eqb_refl]. }
  congruence.
Qed.

Lemma sim_sync_entries entries :
  Forall (walk_done L) entries ->
  forall here (folder : node Sim.drive) w,
    Sim.faults w = [] ->
    forallb (readable L here) entries = true ->
    forallb tidy entries = true ->
    distinct (map entry_name entries) = true ->
    exists w' t,
      for_each (sync_entry (D := Sim.drive) L here folder) entries w = (Ret tt, w', t)
      /\ Sim.faults w' = []
      /\ (forall q, (forall e, In e entries ->
                               Sim.is_prefix (folder ++ [entry_name e]) q = false) ->
                    Sim.store w' q = Sim.store w q)
      /\ forallb (in_place L (Sim.store w') here folder) entries = true.
Proof.
  induction 1 as [ | e entries He _ IH]; intros here folder w Hf Hr Ht Hd.
  - exists w, []. repeat split; auto.
  - cbn [forallb] in Hr, Ht. apply andb_prop in Hr. apply andb_prop in Ht.
    destruct Hr as [Hre Hrs]. destruct Ht as [Hte Hts].
    cbn [map] in Hd. apply distinct_head in Hd. destruct Hd as [Hfresh Hds].
    destruct (He here folder w Hf Hre Hte) as (w1 & t1 & E1 & Hf1 & Hframe1 & Hin1).
    destruct (IH here folder w1 Hf1 Hrs Hts Hds) as (w2 & t2 & E2 & Hf2 & Hframe2 & Hin2).
    exists w2, (t1 ++ t2). split; [ | split; [exact Hf2 | split]].
    + cbn [for_each]. unfold bind. now rewrite E1, E2.
    + intros q Hq. rewrite Hframe2, Hframe1; auto.
      * apply Hq. now left.
      * intros e' He'. apply Hq. now right.
    + cbn [forallb]. rewrite Hin2, andb_true_r.
      rewrite <- Hin1. apply in_place_agrees.
      intros q Hp. apply Hframe2. intros e' He'.
      apply (is_prefix_sibling folder (entry_name e) (entry_name e') q); [ | exact Hp].
      apply Hfresh. now apply in_map.
Qed.

Lemma sim_sync_entry : forall e, walk_done L e.
Proof.
  induction e as [name content | name children IH | name] using entry_tree_ind;
    intros here folder w Hf Hr Ht.
  - cbn [sync_entry in_place entry_name].
    destruct (PyStr.startswith name "." || String.eqb name "__pycache__");
      [exists w, []; repeat split; auto | ].
    cbn [readable] in Hr. cbn [tidy entry_name] in Ht. rewrite andb_true_r in Ht.
    destruct (under_whitelisted L (relpath_of here name)) eqn:Hu; cbn [negb orb] in Hr |- *;
      [ | exists w, []; repeat split; auto].
    destruct (open_rb L (relpath_of here name)) as [c | ] eqn:Ho; [ | discriminate].
    destruct (sim_upload_file L folder (relpath_of here name) (relpath_of here name) w c Hf Ho)
      as (w' & t & E & Hf' & Hst & Hframe & _).
    rewrite (basename_relpath here name Ht) in Hst, Hframe.
    exists w', t. split; [exact E | ]. split; [exact Hf' | ].
    split; [exact Hframe | ]. rewrite Hst. apply String.eqb_refl.
  - cbn [sync_entry in_place entry_name].
    destruct (PyStr.startswith name "." || String.eqb name "__pycache__");
      [exists w, []; repeat split; auto | ].
    cbn [readable] in Hr. cbn [tidy entry_name] in Ht.
    apply andb_prop in Ht. destruct Ht as [_ Ht].
    apply andb_prop in Ht. destruct Ht as [Hd Ht].
    set (rel := relpath_of here name) in *.
    replace (if existsb (String.eqb rel) (FOLDERS_TO_SYNC L) then true
             else under_whitelisted L rel)
      with (existsb (String.eqb rel) (FOLDERS_TO_SYNC L) || under_whitelisted L rel)
      by (now destruct (existsb (String.eqb rel) (FOLDERS_TO_SYNC L))).
    destruct (existsb (String.eqb rel) (FOLDERS_TO_SYNC L) || under_whitelisted L rel);
      cbn [negb]; [ | exists w, []; repeat split; auto].
    destruct (sim_sub_folder_of folder name w Hf) as (w1 & t1 & E1 & Hf1 & Hframe1 & _ & _).
    destruct (sim_sync_entries children IH rel (folder ++ [name]) w1 Hf1 Hr Ht Hd)
      as (w2 & t2 & E2 & Hf2 & Hframe2 & Hin2).
    exists w2. eexists. split; [ | split; [exact Hf2 | split; [ | exact Hin2]]].
    + unfold bind, print. rewrite E1. unfold bind. rewrite E2. reflexivity.
    + intros q Hq. rewrite Hframe2, Hframe1; auto.
      intros e' _. now apply is_prefix_below.
  - exists w, []. cbn [sync_entry in_place entry_name].
    destruct (PyStr.startswith name "." || String.eqb name "__pycache__");
      repeat split; auto.
Qed.

End Sim_walk_tree.

(** *** Whole runs of [main] on the in-memory drive without failures *)

Section Sim_main.

Local Open Scope list_scope.

Variable L : Local.

(** The node of an entry of [folder] is neither [folder] nor outside it. *)
Lemma outside_below (folder : node Sim.drive) a q :
  Sim.is_prefix folder q = false \/ q = folder ->
  Sim.is_prefix (folder ++ [a]) q = false.
Proof.
  intros [H | ->].
  - now apply is_prefix_below.
  - apply is_prefix_longer.
Qed.



Lemma sim_sync_directory here entries (folder : node Sim.drive) w :
  Sim.faults w = [] ->
  forallb (readable L here) entries = true ->
  forallb tidy entries = true ->
  distinct (map entry_name entries) = true ->
  exists w' t,
    sync_directory (D := Sim.drive) L here entries folder w = (Ret tt, w', t)
    /\ Sim.faults w' = []
    /\ (forall q, Sim.is_prefix folder q = false \/ q = folder ->
                  Sim.store w' q = Sim.store w q)
    /\ forallb (in_place L (Sim.store w') here folder) entries = true.
Proof.
  intros Hf Hr Ht Hd.
  assert (Hall : Forall (walk_done L) entries).
  { apply Forall_forall. intros e _. apply sim_sync_entry. }
  destruct (sim_sync_entries L entries Hall here folder w Hf Hr Ht Hd)
    as (w' & t & E & Hf' & Hframe & Hin).
  exists w', t. repeat split; auto.
  intros q Hq. apply Hframe. intros e _. now apply outside_below.
Qed.


End Sim_main.

(** X26.  On a drive that does not fail, the full walk of a tidy tree whose
    files in scope can be read returns normally and leaves every file in
    scope in place: below the given folder, under the same names, with the
    content it read; nodes that are not strictly below the folder are left
    alone. *)
Theorem full_walk_puts_every_file_in_place
    (L : Local) (here : string) (entries : list entry) (folder : node Sim.drive)
    (w : Sim.state) :
  Sim.faults w = [] ->
  forallb (readable L here) entries = true ->
  forallb tidy entries = true ->
  distinct (map entry_name entries) = true ->
  exists w' t,
    sync_directory (D := Sim.drive) L here entries folder w = (Ret tt, w', t)
    /\ Sim.faults w' = []
    /\ (forall q, Sim.is_prefix folder q = false \/ q = folder ->
                  Sim.store w' q = Sim.store w q)
    /\ forallb (in_place L (Sim.store w') here folder) entries = true.
Proof. apply sim_sync_directory. Qed.

Lemma full_walk_puts_every_file_in_place_witness :
  exists w' t,
    sync_directory (D := Sim.drive) (Demo.local "") "." Demo.tree Demo.app
      (Sim.initial [(["CooklangApp"], Sim.RFolder)] []) = (Ret tt, w', t)
    /\ forallb (in_place (Demo.local "") (Sim.store w') "." Demo.app) Demo.tree = true.
Proof.
  destruct (full_walk_puts_every_file_in_place (Demo.local "") "." Demo.tree Demo.app
              (Sim.initial [(["CooklangApp"], Sim.RFolder)] [])
              eq_refl eq_refl eq_refl eq_refl) as (w' & t & E & _ & _ & H).
  exists w', t. split; [exact E | exact H].
Defined.



(** X28.  Running again at the recorded revision changes nothing: on a
    drive that does not fail, when the root folder exists, the marker reads
    as the current revision and the diff from that revision to itself gives
    no change, [main] returns normally, makes no mutation and leaves the
    drive exactly as it was. *)
Theorem rerun_at_recorded_revision_changes_nothing
    (L : Local) (drive : node Sim.drive) (w : Sim.state)
    (root : Sim.rnode) (content out : string) :
  Sim.faults w = [] ->
  Sim.store w (drive ++ [ICLOUD_FOLDER_NAME])%list = Some root ->
  Sim.store w ((drive ++ [ICLOUD_FOLDER_NAME]) ++ [STATE_FILE_NAME])%list
    = Some (Sim.RFile content) ->
  git_rev_parse_HEAD L = Ret out ->
  PyStr.strip (PyStr.universal_newlines content) = PyStr.strip out ->
  PyStr.strip out <> EmptyString ->
  fst (fst (get_git_changes (D := Sim.drive) L (PyStr.strip out) (PyStr.strip out) w))
    = Ret [] ->
  exists t,
    main (D := Sim.drive) L drive w = (Ret tt, w, t)
    /\ filter is_mutation t = [].
Proof.
  intros Hf Hroot Hmark Hg Hsame Hne Hdiff.
  set (app_folder := (drive ++ [ICLOUD_FOLDER_NAME])%list) in *.
  assert (E1 : get_or_create_folder (D := Sim.drive) drive ICLOUD_FOLDER_NAME w
               = (Ret app_folder, w, [Demo.GetItem drive ICLOUD_FOLDER_NAME])).
  { unfold get_or_create_folder, try_except, bind, attempt, item, remote, ret.
    simpl getitem. unfold Sim.call, Sim.next_fault. rewrite Hf. fold app_folder.
    now rewrite Hroot. }
  pose proof (sim_marker_read app_folder content w Hf Hmark) as E2.
  rewrite Hsame in E2.
  assert (E3 : incremental_sync (D := Sim.drive) L app_folder (PyStr.strip out)
                 (PyStr.strip out) w
               = (Ret tt, w,
                  [Demo.Print (MsgFoundLastDeployed (PyStr.strip out));
                   Demo.Print MsgCalculatingChanges; Demo.Print MsgNoChanges])).
  { unfold incremental_sync, bind at 1 2 3, print.
    rewrite (get_git_changes_pure Sim.drive L), Hdiff. reflexivity. }
  assert (Htr : PyStr.truthy (PyStr.strip out) = true).
  { destruct (PyStr.strip out); [now elim Hne | reflexivity]. }
  eexists. split.
  - rewrite main_unfold. cbv zeta. rewrite E1, Hg, E2, Htr, E3. reflexivity.
  - reflexivity.
Qed.

Lemma rerun_at_recorded_revision_changes_nothing_witness :
  let L := Demo.local "" in
  let w := Sim.initial [(["CooklangApp"], Sim.RFolder);
                        (["CooklangApp"; "soup"], Sim.RFolder);
                        (["CooklangApp"; "last_deployed_commit.txt"], Sim.RFile "bbb")] [] in
  exists t,
    main (D := Sim.drive) L [] w = (Ret tt, w, t) /\ filter is_mutation t = [].
Proof.
  intros L w.
  assert (Hne : PyStr.strip ("bbb" ++ Demo.lf) <> EmptyString) by discriminate.
  exact (rerun_at_recorded_revision_changes_nothing L [] w Sim.RFolder "bbb"
           ("bbb" ++ Demo.lf) eq_refl eq_refl eq_refl eq_refl eq_refl Hne eq_refl).
Defined.
